(** * login_id_matcher: retry simulation and login matching

    A shallow embedding of the two Python files of the repository,

    - [test_capacity_reservation.py]: [simulate_capacity_reservation], a
      time-bounded retry loop with multiplicative back-off around a stubbed
      EC2 call;
    - [login_matcher.py]: [generate_login_permutations],
      [find_matching_logins], the two CSV readers and [main].

    Conventions of the embedding.

    - Python [int] is [Z].  Python [float] is an IEEE 754 binary64 value, a
      [spec_float] of the Standard Library with precision 53 and exponent
      bound 1024: [float_mul] and [float_sub] round to nearest, ties to even,
      and give infinities and NaN as Python does.  An int that meets a float
      in [*] or [-] is converted first, which raises OverflowError when it
      is too large ([float_of_int]); a comparison of an int with a float is
      exact and never raises ([py_lt]).
    - [datetime.now()] is an input of the model: [clock n] is the value of
      [(datetime.now() - start_time).total_seconds()] at the [n]-th time the
      loop evaluates it, a finite float.  The loop reads the clock once in
      its condition and once after the call, so iteration [j] (counted from
      0) reads [clock (2*j)] and [clock (2*j+1)].
    - The stubbed call is an input as well: [executor a] is what arming the
      stub and calling [ec2.create_capacity_reservation] do on attempt [a].
      The source arms the stub from the attempt number; [stub_script] is
      that script.  The client and the stubber of lines 22-24 are taken as
      created.
    - A [while] loop has no structural bound, so [retry_loop] takes fuel and
      returns [None] when it runs out.
    - Everything the loop does to the outside (the call, [print],
      [time.sleep]) is recorded in a trace. *)

From Stdlib Require Import ZArith QArith Qminmax Qpower Lia Lqa.
From Stdlib Require Import Floats.SpecFloat.
From Stdlib Require Import Strings.String Strings.Ascii Numbers.DecimalString.
From stdpp Require Import base list strings gmap.

Module CapacityReservation.

Open Scope Z_scope.

(** ** Numbers *)

(** Precision and exponent bound of binary64. *)
Definition float_prec : Z := 53.
Definition float_emax : Z := 1024.

(** The double nearest to [m * 2 ^ e] (ties to even). *)
Definition double (m e : Z) : spec_float :=
  binary_normalize float_prec float_emax m e false.

(** The conversion of an int to a float, as [float(n)] and the mixed
    arithmetic of [int] with [float] do it.  [None] is OverflowError
    ("int too large to convert to float"). *)
Definition float_of_int (n : Z) : option spec_float :=
  match double n 0 with
  | S754_infinity _ => None
  | x => Some x
  end.

(** [x * y] and [x - y] on floats. *)
Definition float_mul : spec_float → spec_float → spec_float :=
  SFmul float_prec float_emax.
Definition float_sub : spec_float → spec_float → spec_float :=
  SFsub float_prec float_emax.

(** The numbers the loop handles: [current_interval] is an [int] until line
    143 has produced a [float]. *)
Inductive PyNum :=
| PInt (n : Z)
| PFloat (x : spec_float).

(** The exact value of a number, on the extended rational line. *)
Inductive Extended :=
| ENaN
| ENegInf
| EFinite (q : Q)
| EPosInf.

Definition dyadic (s : bool) (m : positive) (e : Z) : Q :=
  let v := (inject_Z (Zpos m) * 2 ^ e)%Q in
  if s then (- v)%Q else v.

Definition float_value (x : spec_float) : Extended :=
  match x with
  | S754_zero _ => EFinite 0
  | S754_infinity false => EPosInf
  | S754_infinity true => ENegInf
  | S754_nan => ENaN
  | S754_finite s m e => EFinite (dyadic s m e)
  end.

Definition num_value (x : PyNum) : Extended :=
  match x with
  | PInt n => EFinite (inject_Z n)
  | PFloat f => float_value f
  end.

(** [x < y] on rationals, as a boolean. *)
Definition Qltb (x y : Q) : bool := negb (Qle_bool y x).

Definition ext_ltb (a b : Extended) : bool :=
  match a, b with
  | ENaN, _ | _, ENaN => false
  | _, ENegInf => false
  | ENegInf, _ => true
  | EPosInf, _ => false
  | _, EPosInf => true
  | EFinite x, EFinite y => Qltb x y
  end.

Definition ext_eqb (a b : Extended) : bool :=
  match a, b with
  | ENegInf, ENegInf => true
  | EPosInf, EPosInf => true
  | EFinite x, EFinite y => Qeq_bool x y
  | _, _ => false
  end.

(** [a < b], [a == b] and [a <= b] on numbers.  Python compares an [int]
    with a [float] by their exact values; every comparison with NaN is
    false. *)
Definition py_lt (a b : PyNum) : bool := ext_ltb (num_value a) (num_value b).
Definition py_eq (a b : PyNum) : bool := ext_eqb (num_value a) (num_value b).
Definition py_le (a b : PyNum) : bool := py_lt a b || py_eq a b.

(** [min(a, b)]: the first argument unless the second is strictly smaller. *)
Definition py_min (a b : PyNum) : PyNum := if py_lt b a then b else a.

(** [a * b] with [b] a float: an int [a] is converted first. *)
Definition py_mul (a : PyNum) (b : spec_float) : option spec_float :=
  match a with
  | PInt n =>
      match float_of_int n with
      | Some x => Some (float_mul x b)
      | None => None
      end
  | PFloat x => Some (float_mul x b)
  end.

(** [int(x)] on a finite float of value [x]: truncation towards zero. *)
Definition py_int (x : Q) : Z := Z.quot (Qnum x) (Zpos (Qden x)).

(** [str(n)] on an int, as used by the f-strings. *)
Definition str_of_Z (n : Z) : string := NilZero.string_of_int (Z.to_int n).

(** ** Values *)

(** A value of [(datetime.now() - start_time).total_seconds()]: a finite
    float, given by its sign, an integer mantissa and a binary exponent,
    that is the number [(-1)^negative * mantissa * 2^exponent].  Every
    double that is not an infinity or NaN is such a reading. *)
Record Reading := {
  negative : bool;
  mantissa : N;
  exponent : Z
}.

Definition reading_float (t : Reading) : spec_float :=
  match mantissa t with
  | N0 => S754_zero (negative t)
  | Npos m => S754_finite (negative t) m (exponent t)
  end.

Definition reading_value (t : Reading) : Q :=
  let v := (inject_Z (Z.of_N (mantissa t)) * 2 ^ exponent t)%Q in
  if negative t then (- v)%Q else v.

(** [params]: the dictionary handed to [simulate_capacity_reservation].  The
    four numeric entries hold what [int(...)] and [float(...)] return. *)
Record Params := {
  InstanceType : string;
  Platform : string;
  AvailabilityZone : string;
  Tenancy : string;
  MaxRetryDurationMinutes : Z;
  InitialRetryIntervalSeconds : Z;
  MaxRetryIntervalSeconds : Z;
  BackoffMultiplier : spec_float
}.

(** What the stubbed call of one iteration does (lines 71-112): arming the
    stub raises, before the [try] and with no call made; or the call returns
    a response, raises [botocore.exceptions.ClientError], or raises
    something else. *)
Inductive Outcome :=
| StubError (what : string)
| Response (CapacityReservationId : string)
| ClientError (code message : string)
| OtherException (what : string).

(** Observable actions of the loop. *)
Inductive Event :=
| EvNow (elapsed : Reading)
| EvAttempt (attempt : Z)
| EvPrint (attempt : Z) (interval : PyNum)
| EvSleep (seconds : Q).

(** The dictionary the function returns.  The success dictionary has no
    ['error'] key and the failure dictionaries have no
    ['capacityReservationId'] key. *)
Record RetryResult := {
  success : bool;
  capacityReservationId : option string;
  error : option string;
  attempts : Z;
  totalDuration : Z;
  finalInterval : PyNum
}.

(** How the function ends: with a [return], or with an exception that
    leaves it. *)
Inductive Completion :=
| Returned (r : RetryResult)
| Raised (what : string).

(** The loop variables, the number of clock readings taken so far, and the
    trace. *)
Record Session := {
  current_interval : PyNum;
  attempt : Z;
  tick : nat;
  trace : list Event
}.

Inductive Step :=
| Continue (s : Session)
| Exit (c : Completion) (tr : list Event).

(** ** Converted parameters (lines 27-30) *)

Definition max_duration (p : Params) : Z := MaxRetryDurationMinutes p * 60.
Definition initial_interval (p : Params) : Z := InitialRetryIntervalSeconds p.
Definition max_interval (p : Params) : Z := MaxRetryIntervalSeconds p.
Definition backoff (p : Params) : spec_float := BackoffMultiplier p.

(** ** The three failure/success dictionaries *)

Definition success_result (id : string) (s : Session) (now : Reading)
    : RetryResult :=
  {| success := true;
     capacityReservationId := Some id;
     error := None;
     attempts := attempt s;
     totalDuration := py_int (reading_value now);
     finalInterval := current_interval s |}.

Definition insufficient_message (n e : Z) : string :=
  ("InsufficientCapacity after " ++ str_of_Z n ++ " attempts over "
     ++ str_of_Z e ++ " seconds")%string.

Definition insufficient_result (s : Session) (elapsed : Reading)
    : RetryResult :=
  {| success := false;
     capacityReservationId := None;
     error := Some (insufficient_message (attempt s)
                      (py_int (reading_value elapsed)));
     attempts := attempt s;
     totalDuration := py_int (reading_value elapsed);
     finalInterval := current_interval s |}.

Definition exceeded_message (d n : Z) : string :=
  ("Exceeded maximum retry duration (" ++ str_of_Z d ++ " seconds) after "
     ++ str_of_Z n ++ " attempts")%string.

Definition exceeded_result (p : Params) (s : Session) : RetryResult :=
  {| success := false;
     capacityReservationId := None;
     error := Some (exceeded_message (max_duration p) (attempt s));
     attempts := attempt s;
     totalDuration := max_duration p;
     finalInterval := current_interval s |}.

(** ** The loop *)

(** Line 127: [max_duration - elapsed], an int minus a float. *)
Definition remaining_budget (p : Params) (elapsed : Reading)
    : option spec_float :=
  match float_of_int (max_duration p) with
  | Some d => Some (float_sub d (reading_float elapsed))
  | None => None
  end.

(** Line 143: [min(current_interval * backoff, max_interval)]. *)
Definition next_interval (p : Params) (interval : PyNum) : option PyNum :=
  match py_mul interval (backoff p) with
  | Some product => Some (py_min (PFloat product) (PInt (max_interval p)))
  | None => None
  end.

(** The trace of an iteration that leaves the function after its call. *)
Definition exit_trace (clock : nat → Reading) (s : Session) : list Event :=
  trace s ++ [EvNow (clock (tick s));
              EvAttempt (attempt s);
              EvNow (clock (S (tick s)))].

(** The trace of an iteration that gets past the print and the sleep of
    lines 139-140. *)
Definition sleep_trace (clock : nat → Reading) (s : Session) : list Event :=
  trace s ++ [EvNow (clock (tick s));
              EvAttempt (attempt s);
              EvNow (clock (S (tick s)));
              EvPrint (attempt s) (current_interval s);
              EvSleep (1 # 10)].

(** The update of lines 143-144, after the print and the sleep. *)
Definition next_session (p : Params) (clock : nat → Reading) (s : Session)
    : option Session :=
  match next_interval p (current_interval s) with
  | Some interval =>
      Some {| current_interval := interval;
              attempt := attempt s + 1;
              tick := S (S (tick s));
              trace := sleep_trace clock s |}
  | None => None
  end.

(** One evaluation of the loop condition (line 69) and, when it holds, one
    run of the body (lines 70-144). *)
Definition loop_body (p : Params) (executor : Z → Outcome)
    (clock : nat → Reading) (s : Session) : Step :=
  if Qltb (reading_value (clock (tick s))) (inject_Z (max_duration p)) then
    match executor (attempt s) with
    | StubError what =>
        Exit (Raised what) (trace s ++ [EvNow (clock (tick s))])
    | Response id =>
        Exit (Returned (success_result id s (clock (S (tick s)))))
             (exit_trace clock s)
    | ClientError _ _ =>
        let elapsed := clock (S (tick s)) in
        match remaining_budget p elapsed with
        | None => Exit (Raised "OverflowError") (exit_trace clock s)
        | Some remaining =>
            if py_lt (PFloat remaining) (current_interval s) then
              Exit (Returned (insufficient_result s elapsed))
                   (exit_trace clock s)
            else
              match next_session p clock s with
              | Some s' => Continue s'
              | None => Exit (Raised "OverflowError") (sleep_trace clock s)
              end
        end
    | OtherException what =>
        Exit (Raised what)
             (trace s ++ [EvNow (clock (tick s)); EvAttempt (attempt s)])
    end
  else Exit (Returned (exceeded_result p s))
            (trace s ++ [EvNow (clock (tick s))]).

Fixpoint retry_loop (p : Params) (executor : Z → Outcome)
    (clock : nat → Reading) (fuel : nat) (s : Session)
    : option (Completion * list Event) :=
  match fuel with
  | O => None
  | S fuel' =>
      match loop_body p executor clock s with
      | Exit c tr => Some (c, tr)
      | Continue s' => retry_loop p executor clock fuel' s'
      end
  end.

(** Lines 64-66. *)
Definition initial_session (p : Params) : Session :=
  {| current_interval := PInt (initial_interval p);
     attempt := 1;
     tick := O;
     trace := [] |}.

(** The retry call over an arbitrary executor script. *)
Definition acquire (p : Params) (executor : Z → Outcome)
    (clock : nat → Reading) (fuel : nat) : option (Completion * list Event) :=
  retry_loop p executor clock fuel (initial_session p).

(** Lines 71-100: for the first three attempts the stub is armed with an
    [InsufficientInstanceCapacity] error, which the call then raises.  From
    the fourth attempt on it is armed with [success_response], whose
    ['EndDate'] is [None]: [stubber.add_response] validates the response
    against the service model and raises [ParamValidationError], at line 88,
    outside the [try]. *)
Definition stub_script (attempt : Z) : Outcome :=
  if attempt <=? 3
  then ClientError "InsufficientInstanceCapacity" "Simulated capacity not available"
  else StubError "ParamValidationError".

Definition simulate_capacity_reservation (params : Params)
    (clock : nat → Reading) (fuel : nat) : option (Completion * list Event) :=
  acquire params stub_script clock fuel.

(** ** Derived notions used by the statements *)

(** The session at the head of iteration [j], when every earlier iteration
    went on to the next one. *)
Fixpoint session_at (p : Params) (clock : nat → Reading) (j : nat)
    : option Session :=
  match j with
  | O => Some (initial_session p)
  | S j' =>
      match session_at p clock j' with
      | Some s => next_session p clock s
      | None => None
      end
  end.

(** The interval in force during iteration [j]: the initial interval,
    updated [j] times by line 143. *)
Fixpoint interval_at (p : Params) (j : nat) : option PyNum :=
  match j with
  | O => Some (PInt (initial_interval p))
  | S j' =>
      match interval_at p j' with
      | Some interval => next_interval p interval
      | None => None
      end
  end.

(** The trace of one evaluation of the loop condition and body. *)
Definition step_trace (st : Step) : list Event :=
  match st with
  | Continue s => trace s
  | Exit _ tr => tr
  end.

(** Loop states that an execution can be in at the head of an iteration. *)
Inductive reachable (p : Params) (executor : Z → Outcome)
    (clock : nat → Reading) : Session → Prop :=
| reachable_init : reachable p executor clock (initial_session p)
| reachable_step s s' :
    reachable p executor clock s →
    loop_body p executor clock s = Continue s' →
    reachable p executor clock s'.

Definition is_attempt (e : Event) : bool :=
  match e with EvAttempt _ => true | _ => false end.

Definition is_sleep (e : Event) : bool :=
  match e with EvSleep _ => true | _ => false end.

(** Number of calls made to the executor. *)
Definition issued (tr : list Event) : Z :=
  Z.of_nat (length (filter (λ e, is_attempt e = true) tr)).

(** Number of calls to [time.sleep]. *)
Definition sleeps (tr : list Event) : nat :=
  length (filter (λ e, is_sleep e = true) tr).

(** The intervals printed at line 139, in order. *)
Definition printed (tr : list Event) : list PyNum :=
  omap (λ e, match e with EvPrint _ x => Some x | _ => None end) tr.

(** Time the call of iteration [j] took, as seen by the loop's clock. *)
Definition attempt_latency (clock : nat → Reading) (j : nat) : Q :=
  (reading_value (clock (S (2 * j))) - reading_value (clock (2 * j)%nat))%Q.

(** Iteration [i] goes on to the next one: the loop condition holds, the
    call raises [ClientError], the remaining budget is computed and is not
    below the interval, and the product of line 143 is computed. *)
Definition proceeds (p : Params) (executor : Z → Outcome)
    (clock : nat → Reading) (i : nat) : Prop :=
  (reading_value (clock (2 * i)%nat) < inject_Z (max_duration p))%Q ∧
  (∃ code message, executor (Z.of_nat i + 1) = ClientError code message) ∧
  ∃ interval remaining,
    interval_at p i = Some interval ∧
    remaining_budget p (clock (S (2 * i))) = Some remaining ∧
    py_lt (PFloat remaining) interval = false ∧
    is_Some (py_mul interval (backoff p)).

(** Two executors behave alike when they differ at most in the code and
    message of the [ClientError]s they raise. *)
Definition same_kind (a b : Outcome) : Prop :=
  match a, b with
  | StubError x, StubError y => x = y
  | Response x, Response y => x = y
  | ClientError _ _, ClientError _ _ => True
  | OtherException x, OtherException y => x = y
  | _, _ => False
  end.

(** ** Sample inputs *)

(** A reading of [n] whole seconds. *)
Definition seconds (n : N) : Reading :=
  {| negative := false; mantissa := n; exponent := 0 |}.

(** A clock that advances an eighth of a second between readings. *)
Definition eighth_clock (n : nat) : Reading :=
  {| negative := false; mantissa := N.of_nat n; exponent := -3 |}.

(** The parameters of [test_simulation]. *)
Definition test_params : Params :=
  {| InstanceType := "m5.xlarge";
     Platform := "Linux/UNIX";
     AvailabilityZone := "us-east-1a";
     Tenancy := "default";
     MaxRetryDurationMinutes := 60;
     InitialRetryIntervalSeconds := 30;
     MaxRetryIntervalSeconds := 300;
     BackoffMultiplier := double 2 0 |}.

(** A one-minute budget, and a clock on which the first call returns after
    thirty seconds: the remaining thirty seconds equal the interval. *)
Definition boundary_params : Params :=
  {| InstanceType := "m5.xlarge";
     Platform := "Linux/UNIX";
     AvailabilityZone := "us-east-1a";
     Tenancy := "default";
     MaxRetryDurationMinutes := 1;
     InitialRetryIntervalSeconds := 30;
     MaxRetryIntervalSeconds := 300;
     BackoffMultiplier := double 2 0 |}.

Definition boundary_clock (n : nat) : Reading :=
  match n with O => seconds 0 | _ => seconds 30 end.

(** A clock on which the sleep after the first failure lasts a minute. *)
Definition stalled_clock (n : nat) : Reading :=
  match n with O => seconds 0 | S O => seconds 1 | _ => seconds 61 end.

(** A clock on which the sleep after the first failure lasts 199 seconds. *)
Definition overshoot_clock (n : nat) : Reading :=
  match n with O => seconds 0 | S O => seconds 1 | _ => seconds 200 end.

(** A clock that does not advance. *)
Definition frozen_clock (n : nat) : Reading := seconds 0.

(** The script the comments of lines 68-87 describe: three capacity errors,
    then a response. *)
Definition intended_script (attempt : Z) : Outcome :=
  if attempt <=? 3
  then ClientError "InsufficientInstanceCapacity" "Simulated capacity not available"
  else Response "cr-test-123456789".

(** A script whose every call raises a capacity error. *)
Definition failing_script (attempt : Z) : Outcome :=
  ClientError "InsufficientInstanceCapacity" "Simulated capacity not available".

(** A script whose first failure is not a capacity error. *)
Definition fatal_then_ok (attempt : Z) : Outcome :=
  if attempt =? 1
  then ClientError "InvalidParameterValue" "malformed request"
  else Response "cr-test-123456789".

(** The same script with a capacity error. *)
Definition capacity_then_ok (attempt : Z) : Outcome :=
  if attempt =? 1
  then ClientError "InsufficientInstanceCapacity" "Simulated capacity not available"
  else Response "cr-test-123456789".

(** A script whose call raises something that is not a [ClientError]. *)
Definition raising_script (attempt : Z) : Outcome :=
  OtherException "ParamValidationError".

(** A zero budget. *)
Definition zero_budget_params : Params :=
  {| InstanceType := "m5.xlarge";
     Platform := "Linux/UNIX";
     AvailabilityZone := "us-east-1a";
     Tenancy := "default";
     MaxRetryDurationMinutes := 0;
     InitialRetryIntervalSeconds := 30;
     MaxRetryIntervalSeconds := 300;
     BackoffMultiplier := double 2 0 |}.


(** A budget shorter than the initial interval. *)
Definition short_budget_params : Params :=
  {| InstanceType := "m5.xlarge";
     Platform := "Linux/UNIX";
     AvailabilityZone := "us-east-1a";
     Tenancy := "default";
     MaxRetryDurationMinutes := 1;
     InitialRetryIntervalSeconds := 90;
     MaxRetryIntervalSeconds := 300;
     BackoffMultiplier := double 2 0 |}.

(** A budget of 36028797018964140 seconds, just above 2^55, and an initial
    interval one second longer.  As a double the budget is
    36028797018964144. *)
Definition huge_budget_params : Params :=
  {| InstanceType := "m5.xlarge";
     Platform := "Linux/UNIX";
     AvailabilityZone := "us-east-1a";
     Tenancy := "default";
     MaxRetryDurationMinutes := 600479950316069;
     InitialRetryIntervalSeconds := 36028797018964141;
     MaxRetryIntervalSeconds := 36028797018964141;
     BackoffMultiplier := double 2 0 |}.

(** [test_simulation] (lines 155-171): the simulation on the sample
    parameters.  The prints are not modelled. *)
Definition test_simulation (clock : nat → Reading) (fuel : nat)
    : option (Completion * list Event) :=
  simulate_capacity_reservation test_params clock fuel.

End CapacityReservation.

Module LoginMatcher.

(** ** Python values

    A [str] is a [string] whose characters are the code points 0-255; a
    Python exception is a constructor of [PyExc]; a computation that can
    raise is a [Py]. *)

Inductive PyExc := IndexError | KeyError.

Inductive Py (A : Type) :=
| Ok (a : A)
| Raise (e : PyExc).
Arguments Ok {A} a.
Arguments Raise {A} e.

#[global] Instance Py_ret : MRet Py := λ A a, Ok a.
#[global] Instance Py_bind : MBind Py := λ A B f m,
  match m with Ok a => f a | Raise e => Raise e end.

(** [c.lower()] on one character of the range 0-255: the letters A-Z and the
    Latin-1 capitals (all of 192-222 but the multiplication sign, 215) move up
    by 32. *)
Definition lower_char (c : ascii) : ascii :=
  let n := nat_of_ascii c in
  if ((65 <=? n) && (n <=? 90))%nat then ascii_of_nat (n + 32)
  else if ((192 <=? n) && (n <=? 222) && negb (n =? 215))%nat
       then ascii_of_nat (n + 32)
  else c.

(** [c.isspace()] on the range 0-255. *)
Definition is_space (c : ascii) : bool :=
  let n := nat_of_ascii c in
  (((9 <=? n) && (n <=? 13)) || ((28 <=? n) && (n <=? 32))
   || (n =? 133) || (n =? 160))%nat.

(** [s.lower()] *)
Fixpoint lower (s : string) : string :=
  match s with
  | EmptyString => EmptyString
  | String c s' => String (lower_char c) (lower s')
  end.

Fixpoint lstrip (s : string) : string :=
  match s with
  | EmptyString => EmptyString
  | String c s' => if is_space c then lstrip s' else s
  end.

Fixpoint rstrip (s : string) : string :=
  match s with
  | EmptyString => EmptyString
  | String c s' =>
      match rstrip s' with
      | EmptyString => if is_space c then EmptyString else String c EmptyString
      | r => String c r
      end
  end.

(** [s.strip()] *)
Definition strip (s : string) : string := rstrip (lstrip s).

(** [s[:n]] *)
Fixpoint str_take (n : nat) (s : string) : string :=
  match n, s with
  | S n', String c s' => String c (str_take n' s')
  | _, _ => EmptyString
  end.

(** [s[0]]: a one-character string, [IndexError] on the empty string. *)
Definition item_first (s : string) : Py string :=
  match s with
  | EmptyString => Raise IndexError
  | String c _ => Ok (String c EmptyString)
  end.

(** [s[-1]]: likewise for the last character. *)
Fixpoint item_last (s : string) : Py string :=
  match s with
  | EmptyString => Raise IndexError
  | String c EmptyString => Ok (String c EmptyString)
  | String _ s' => item_last s'
  end.

(** [str(len(s))] *)
Definition str_of_len (s : string) : string :=
  NilZero.string_of_uint (Nat.to_uint (String.length s)).

(** Concatenation of two string expressions, the left one evaluated first. *)
Definition cat (a b : Py string) : Py string :=
  x ← a; y ← b; Ok (x +:+ y).

(** A list display: the elements are evaluated from left to right. *)
Fixpoint py_list (es : list (Py string)) : Py (list string) :=
  match es with
  | [] => Ok []
  | e :: es' => x ← e; xs ← py_list es'; Ok (x :: xs)
  end.

(** [list(dict.fromkeys(l))]: the keys of a dictionary, in insertion order;
    setting a key that is present leaves its position alone. *)
Definition dict_add_key (keys : list string) (k : string) : list string :=
  if decide (k ∈ keys) then keys else keys ++ [k].

Definition dict_fromkeys (l : list string) : list string :=
  fold_left dict_add_key l [].

(** ** generate_login_permutations *)

(** The list display of lines 11-34, over the lower-cased and stripped
    names. *)
Definition candidate_logins (first last : string) : Py (list string) :=
  let f := Ok first in
  let l := Ok last in
  let lit (s : string) := Ok s in
  py_list [
    cat f l;
    cat (cat f (lit ".")) l;
    cat (item_first first) l;
    cat f (item_first last);
    cat (lit (str_take 3 first)) (lit (str_take 3 last));
    cat l f;
    cat (cat l (lit ".")) f;
    cat l (item_first first);
    cat f (lit (str_of_len last));
    cat (cat (item_first first) (lit ".")) l;
    cat (cat (lit (str_take 3 first)) (lit ".")) (lit (str_take 3 last));
    cat (cat f (lit "_")) l;
    cat (cat l (lit "_")) f;
    cat (cat (item_first first) (lit "_")) l;
    cat (lit (str_take 2 first)) (lit (str_take 3 last));
    cat (lit (str_take 4 first)) (lit (str_take 2 last));
    cat f (lit (str_take 4 last));
    cat (lit (str_take 4 last)) (lit (str_take 4 first));
    cat (item_first first) (lit (str_take 4 last));
    cat (lit (str_take 4 first)) (item_first last);
    cat (cat (cat (item_first first) (item_last first)) (item_first last))
        (item_last last);
    cat (lit (str_take 2 first)) (lit (str_take 2 last))
  ].

Definition generate_login_permutations (first_name last_name : string)
    : Py (list string) :=
  let first := strip (lower first_name) in
  let last := strip (lower last_name) in
  permutations ← candidate_logins first last;
  Ok (dict_fromkeys permutations).

(** ** find_matching_logins *)

Section Matching.

(** The value stored for a login: the row of its other fields. *)
Context {Data : Type}.

(** The returned dictionary with its two keys. *)
Record MatchResult := {
  matches : gmap (string * string) (list Data);
  non_matches : gmap string Data
}.

(** A computation over the caller's dictionary [existing_logins]: it may
    raise, and it hands the dictionary back as it leaves it. *)
Definition M (A : Type) : Type :=
  gmap string Data → Py A * gmap string Data.

Definition M_ret {A} (a : A) : M A := λ d, (Ok a, d).

Definition M_bind {A B} (m : M A) (f : A → M B) : M B := λ d,
  match m d with
  | (Ok a, d') => f a d'
  | (Raise e, d') => (Raise e, d')
  end.

Definition M_lift {A} (m : Py A) : M A := λ d, (m, d).

(** [set(existing_logins.keys())] *)
Definition logins_keys : M (gset string) := λ d, (Ok (dom d), d).

(** [existing_logins[login]] *)
Definition logins_getitem (login : string) : M Data := λ d,
  (match d !! login with Some data => Ok data | None => Raise KeyError end, d).

(** [existing_logins.items()] *)
Definition logins_items : M (list (string * Data)) := λ d,
  (Ok (map_to_list d), d).

(** The list comprehension of lines 63-65. *)
Fixpoint lookup_all (found_matches : list string) : M (list Data) :=
  match found_matches with
  | [] => M_ret []
  | login :: rest =>
      M_bind (logins_getitem login) (λ data,
      M_bind (lookup_all rest) (λ datas, M_ret (data :: datas)))
  end.

(** The loop of lines 56-66 over the rest of [names_list]. *)
Fixpoint match_names (existing_login_ids : gset string)
    (names_list : list (string * string))
    (matches : gmap (string * string) (list Data))
    (matched_logins : gset string)
    : M (gmap (string * string) (list Data) * gset string) :=
  match names_list with
  | [] => M_ret (matches, matched_logins)
  | (first_name, last_name) :: rest =>
      M_bind (M_lift (generate_login_permutations first_name last_name))
        (λ possible_logins,
      let found_matches :=
        filter (λ login, login ∈ existing_login_ids) possible_logins in
      match found_matches with
      | [] => match_names existing_login_ids rest matches matched_logins
      | _ :: _ =>
          M_bind (lookup_all found_matches) (λ datas,
          match_names existing_login_ids rest
            (<[(first_name, last_name) := datas]> matches)
            (matched_logins ∪ list_to_set found_matches))
      end)
  end.

Definition find_matching_logins (names_list : list (string * string))
    : M MatchResult :=
  M_bind logins_keys (λ existing_login_ids,
  M_bind (match_names existing_login_ids names_list ∅ ∅) (λ '(matches, matched_logins),
  M_bind logins_items (λ items,
  M_ret {| matches := matches;
           non_matches :=
             list_to_map
               (filter (λ item : string * Data, item.1 ∉ matched_logins) items)
        |}))).

(** A login that [generate_login_permutations] produces for a name of the
    list. *)
Definition generated_by (names_list : list (string * string))
    (login : string) : Prop :=
  ∃ first_name last_name permutations,
    (first_name, last_name) ∈ names_list ∧
    generate_login_permutations first_name last_name = Ok permutations ∧
    login ∈ permutations.

(** The entry of [matches] for a name holds the data of every existing
    login the name generates. *)
Definition covers (existing_logins : gmap string Data)
    (matches : gmap (string * string) (list Data))
    (name : string * string) : Prop :=
  ∀ permutations login data,
    generate_login_permutations name.1 name.2 = Ok permutations →
    login ∈ permutations →
    existing_logins !! login = Some data →
    ∃ datas, matches !! name = Some datas ∧ data ∈ datas.

(** What the loop stores under a name: the data of the existing logins among
    its permutations, in the order of the permutations, when there is one. *)
Definition expected_entry (existing_logins : gmap string Data)
    (name : string * string) : option (list Data) :=
  match generate_login_permutations name.1 name.2 with
  | Ok permutations =>
      match filter (λ login, login ∈ dom existing_logins) permutations with
      | [] => None
      | found => Some (omap (λ login, existing_logins !! login) found)
      end
  | Raise _ => None
  end.

End Matching.

(** ** The CSV readers

    [csv.reader(f)] is taken as the list of the rows it yields, one list of
    cells per line of the file (the empty list for a blank line); opening
    the file and splitting its lines into cells are the library's. *)

(** [read_names_from_csv] (lines 77-88): [next(reader, None)] drops the first
    row, and each later row with at least two cells appends the pair of its
    first two cells, stripped. *)
Definition read_names_from_csv (rows : list (list string))
    : list (string * string) :=
  fold_left
    (λ names row,
       match row with
       | first_name :: last_name :: _ =>
           names ++ [(strip first_name, strip last_name)]
       | _ => names
       end)
    (tail rows) [].

(** A row of [csv.DictReader]: the dictionary from field names to cells,
    where a missing cell is [None] (the default [restval]), and the cells
    beyond the field names, stored under the key [None] (the default
    [restkey]) when there are any. *)
Record Row := {
  fields : gmap string (option string);
  rest : option (list string)
}.

(** [DictReader.__next__] on a non-blank row: [dict(zip(fieldnames, row))],
    in which a later cell of a repeated field name replaces the earlier one,
    then the surplus cells or the missing fields. *)
Definition dict_row (fieldnames row : list string) : Row :=
  let d := fold_left (λ d kv, <[kv.1 := Some kv.2]> d) (zip fieldnames row) ∅ in
  if (length fieldnames <? length row)%nat
  then {| fields := d; rest := Some (drop (length fieldnames) row) |}
  else {| fields := fold_left (λ d key, <[key := None]> d)
                      (drop (length row) fieldnames) d;
          rest := None |}.

(** [csv.DictReader(f)]: the first row gives the field names, whatever it
    is; blank rows after it are skipped.  On an empty file there are no
    field names and no rows. *)
Definition dict_reader (rows : list (list string)) : list string * list Row :=
  match rows with
  | [] => ([], [])
  | fieldnames :: lines =>
      (fieldnames, dict_row fieldnames <$> filter (λ row, row ≠ []) lines)
  end.

(** Truth value of a [str]. *)
Definition truthy (s : string) : bool :=
  match s with EmptyString => false | String _ _ => true end.

(** [reader.fieldnames[0]] *)
Definition first_fieldname (fieldnames : list string) : Py string :=
  match fieldnames with
  | [] => Raise IndexError
  | login_id_field :: _ => Ok login_id_field
  end.

(** [row[key]] *)
Definition row_getitem (row : Row) (key : string) : Py (option string) :=
  match fields row !! key with
  | Some value => Ok value
  | None => Raise KeyError
  end.

(** The loop of lines 105-111 over the rows the reader yields. *)
Fixpoint read_logins_rows (fieldnames : list string) (rows : list Row)
    (logins : gmap string Row) : Py (gmap string Row) :=
  match rows with
  | [] => Ok logins
  | row :: rows' =>
      login_id_field ← first_fieldname fieldnames;
      value ← row_getitem row login_id_field;
      match value with
      | Some cell =>
          if truthy cell then
            let login := strip cell in
            if truthy login
            then read_logins_rows fieldnames rows' (<[login := row]> logins)
            else read_logins_rows fieldnames rows' logins
          else read_logins_rows fieldnames rows' logins
      | None => read_logins_rows fieldnames rows' logins
      end
  end.

(** [read_logins_from_csv] (lines 90-112). *)
Definition read_logins_from_csv (rows : list (list string))
    : Py (gmap string Row) :=
  let reader := dict_reader rows in
  read_logins_rows reader.1 reader.2 ∅.

(** The login a row is stored under, if it is stored: the stripped cell of
    the login field, when it is not empty. *)
Definition row_login (login_id_field : string) (row : Row) : option string :=
  match fields row !! login_id_field with
  | Some (Some cell) =>
      if truthy (strip cell) then Some (strip cell) else None
  | _ => None
  end.

(** Lines 127-129 of [main]: the two files are read and matched.  Parsing
    the command line and printing the result are not modelled. *)
Definition main_results (names_rows logins_rows : list (list string))
    : Py (@MatchResult Row) :=
  let names := read_names_from_csv names_rows in
  existing_logins ← read_logins_from_csv logins_rows;
  (find_matching_logins names existing_logins).1.

End LoginMatcher.

Import CapacityReservation LoginMatcher.

(** * The retry loop *)

Section Numbers.

Open Scope Q_scope.

Lemma Qltb_lt x y : Qltb x y = true ↔ x < y.
Proof.
  unfold Qltb. rewrite negb_true_iff.
  split.
  - intros H. apply Qnot_le_lt. intros Hle.
    apply Qle_bool_iff in Hle. congruence.
  - intros H. destruct (Qle_bool y x) eqn:E; [|reflexivity].
    apply Qle_bool_iff in E. lra.
Qed.

Lemma Qltb_ge x y : Qltb x y = false ↔ y <= x.
Proof.
  split.
  - intros H. destruct (Qlt_le_dec x y) as [Hlt|Hle]; [|exact Hle].
    apply Qltb_lt in Hlt. congruence.
  - intros H. destruct (Qltb x y) eqn:E; [|reflexivity].
    apply Qltb_lt in E. lra.
Qed.

Lemma py_int_le x : 0 <= x → inject_Z (py_int x) <= x.
Proof.
  destruct x as [n d]. unfold py_int, Qle, inject_Z. simpl.
  intros H. assert (0 <= n)%Z by lia.
  rewrite Z.quot_div_nonneg by lia.
  rewrite Z.mul_1_r, Z.mul_comm. apply Z.mul_div_le. lia.
Qed.

Lemma ext_ltb_irrefl a : ext_ltb a a = false.
Proof. destruct a; try reflexivity. simpl. apply Qltb_ge, Qle_refl. Qed.

Lemma py_lt_irrefl a : py_lt a a = false.
Proof. apply ext_ltb_irrefl. Qed.

(** [min(a, b)] is one of its arguments, and [b] is not below it. *)
Lemma py_min_cases a b :
  (py_min a b = a ∧ py_lt b a = false) ∨ (py_min a b = b ∧ py_lt b a = true).
Proof. unfold py_min. destruct (py_lt b a); auto. Qed.

Lemma py_lt_min_r a b : py_lt b (py_min a b) = false.
Proof.
  destruct (py_min_cases a b) as [[-> H]|[-> _]];
    [exact H | apply py_lt_irrefl].
Qed.

Lemma py_lt_Z m n : py_lt (PInt m) (PInt n) = true ↔ (m < n)%Z.
Proof. unfold py_lt. simpl. rewrite Qltb_lt. now rewrite <- Zlt_Qlt. Qed.


(** A number that is at most an int [m] is below every int above [m]. *)
Lemma py_le_lt_Z x m n :
  py_le x (PInt m) = true → (m < n)%Z → py_lt x (PInt n) = true.
Proof.
  unfold py_le, py_lt, py_eq. simpl num_value at 2 4 5.
  intros H Hmn. rewrite Zlt_Qlt in Hmn.
  destruct (num_value x) as [| |q|]; simpl in *; try discriminate; [reflexivity|].
  apply Qltb_lt. apply orb_true_iff in H as [H|H].
  - apply Qltb_lt in H. lra.
  - apply Qeq_bool_iff in H. lra.
Qed.

Lemma reading_value_seconds n :
  reading_value (seconds n) == inject_Z (Z.of_N n).
Proof. unfold reading_value, seconds. simpl. apply Qmult_1_r. Qed.

Lemma reading_value_eighth n :
  reading_value (eighth_clock n) == Z.of_nat n # 8.
Proof.
  unfold reading_value, eighth_clock. simpl negative. simpl mantissa.
  simpl exponent. rewrite nat_N_Z.
  change (2 ^ (-3)) with (1 # 8).
  unfold Qeq, Qmult, inject_Z. simpl. lia.
Qed.

Lemma eighths_succ n : (Z.of_nat (S n) # 8) == (Z.of_nat n # 8) + (1 # 8).
Proof. unfold Qeq, Qplus. simpl. lia. Qed.

Lemma tenths_succ n : (Z.of_nat (S n) # 10) == (Z.of_nat n # 10) + (1 # 10).
Proof. unfold Qeq, Qplus. simpl. lia. Qed.

Lemma tenths_cover m : inject_Z m <= (Z.of_nat (Z.to_nat (10 * m)) # 10).
Proof.
  unfold Qle, inject_Z. simpl.
  destruct (Z.le_gt_cases 0 m).
  - rewrite Z2Nat.id by lia. lia.
  - lia.
Qed.

End Numbers.

Section Traces.

Lemma issued_app tr tr' : issued (tr ++ tr') = (issued tr + issued tr')%Z.
Proof. unfold issued. rewrite filter_app, length_app. lia. Qed.

Lemma sleeps_app tr tr' : sleeps (tr ++ tr') = (sleeps tr + sleeps tr')%nat.
Proof. unfold sleeps. now rewrite filter_app, length_app. Qed.

Lemma printed_app tr tr' : printed (tr ++ tr') = printed tr ++ printed tr'.
Proof. apply omap_app. Qed.

End Traces.

Section RetryLoop.

Open Scope Q_scope.

Variables (p : Params) (executor : Z → Outcome) (clock : nat → Reading).

Abbreviation budget := (inject_Z (max_duration p)).
Abbreviation elapsed n := (reading_value (clock n)).

(** *** The ways through one iteration *)

Lemma loop_body_exceeded s :
  budget <= elapsed (tick s) →
  loop_body p executor clock s
  = Exit (Returned (exceeded_result p s)) (trace s ++ [EvNow (clock (tick s))]).
Proof. intros H. apply Qltb_ge in H. unfold loop_body. now rewrite H. Qed.

Lemma loop_body_stub_error s what :
  elapsed (tick s) < budget →
  executor (attempt s) = StubError what →
  loop_body p executor clock s
  = Exit (Raised what) (trace s ++ [EvNow (clock (tick s))]).
Proof. intros H E. apply Qltb_lt in H. unfold loop_body. now rewrite H, E. Qed.

Lemma loop_body_success s id :
  elapsed (tick s) < budget →
  executor (attempt s) = Response id →
  loop_body p executor clock s
  = Exit (Returned (success_result id s (clock (S (tick s))))) (exit_trace clock s).
Proof. intros H E. apply Qltb_lt in H. unfold loop_body. now rewrite H, E. Qed.

Lemma loop_body_raise s what :
  elapsed (tick s) < budget →
  executor (attempt s) = OtherException what →
  loop_body p executor clock s
  = Exit (Raised what) (trace s ++ [EvNow (clock (tick s)); EvAttempt (attempt s)]).
Proof. intros H E. apply Qltb_lt in H. unfold loop_body. now rewrite H, E. Qed.

Lemma loop_body_overflow s code message :
  elapsed (tick s) < budget →
  executor (attempt s) = ClientError code message →
  remaining_budget p (clock (S (tick s))) = None →
  loop_body p executor clock s
  = Exit (Raised "OverflowError") (exit_trace clock s).
Proof.
  intros H E R. apply Qltb_lt in H. unfold loop_body. now rewrite H, E, R.
Qed.

Lemma loop_body_insufficient s code message remaining :
  elapsed (tick s) < budget →
  executor (attempt s) = ClientError code message →
  remaining_budget p (clock (S (tick s))) = Some remaining →
  py_lt (PFloat remaining) (current_interval s) = true →
  loop_body p executor clock s
  = Exit (Returned (insufficient_result s (clock (S (tick s))))) (exit_trace clock s).
Proof.
  intros H E R T. apply Qltb_lt in H. unfold loop_body.
  now rewrite H, E, R, T.
Qed.

Lemma loop_body_sleep s code message remaining :
  elapsed (tick s) < budget →
  executor (attempt s) = ClientError code message →
  remaining_budget p (clock (S (tick s))) = Some remaining →
  py_lt (PFloat remaining) (current_interval s) = false →
  loop_body p executor clock s
  = match next_session p clock s with
    | Some s' => Continue s'
    | None => Exit (Raised "OverflowError") (sleep_trace clock s)
    end.
Proof.
  intros H E R T. apply Qltb_lt in H. unfold loop_body.
  now rewrite H, E, R, T.
Qed.

Lemma loop_body_continue s s' code message remaining :
  elapsed (tick s) < budget →
  executor (attempt s) = ClientError code message →
  remaining_budget p (clock (S (tick s))) = Some remaining →
  py_lt (PFloat remaining) (current_interval s) = false →
  next_session p clock s = Some s' →
  loop_body p executor clock s = Continue s'.
Proof.
  intros H E R T N.
  now rewrite (loop_body_sleep s code message remaining), N.
Qed.

Lemma loop_body_Continue_inv s s' :
  loop_body p executor clock s = Continue s' →
  next_session p clock s = Some s' ∧
  elapsed (tick s) < budget ∧
  (∃ code message, executor (attempt s) = ClientError code message) ∧
  ∃ remaining,
    remaining_budget p (clock (S (tick s))) = Some remaining ∧
    py_lt (PFloat remaining) (current_interval s) = false.
Proof.
  unfold loop_body.
  destruct (Qltb (elapsed (tick s)) budget) eqn:H; [|discriminate].
  destruct (executor (attempt s)) as [what|id|code message|what];
    try discriminate.
  destruct (remaining_budget p _) as [remaining|]; [|discriminate].
  destruct (py_lt _ (current_interval s)) eqn:T; [discriminate|].
  destruct (next_session p clock s) as [s''|]; [|discriminate].
  intros [= <-]. apply Qltb_lt in H. eauto 8.
Qed.

(** The ways an iteration leaves the function. *)
Lemma loop_body_Exit_inv s c tr :
  loop_body p executor clock s = Exit c tr →
  (c = Returned (exceeded_result p s) ∧ tr = trace s ++ [EvNow (clock (tick s))] ∧
     budget <= elapsed (tick s))
  ∨ (elapsed (tick s) < budget ∧
     ((∃ id, executor (attempt s) = Response id ∧
         c = Returned (success_result id s (clock (S (tick s)))) ∧
         tr = exit_trace clock s)
      ∨ (∃ code message, executor (attempt s) = ClientError code message ∧
           c = Returned (insufficient_result s (clock (S (tick s)))) ∧
           tr = exit_trace clock s)
      ∨ (∃ what, executor (attempt s) = OtherException what ∧
           c = Raised what ∧
           tr = trace s ++ [EvNow (clock (tick s)); EvAttempt (attempt s)])
      ∨ (∃ what, executor (attempt s) = StubError what ∧
           c = Raised what ∧ tr = trace s ++ [EvNow (clock (tick s))])
      ∨ (∃ code message, executor (attempt s) = ClientError code message ∧
           c = Raised "OverflowError" ∧
           (tr = exit_trace clock s ∨ tr = sleep_trace clock s)))).
Proof.
  unfold loop_body.
  destruct (Qltb (elapsed (tick s)) budget) eqn:H.
  - apply Qltb_lt in H. intros Hb. right. split; [exact H|]. revert Hb.
    destruct (executor (attempt s)) as [what|id|code message|what].
    + intros [= <- <-]. do 3 right. left. eauto.
    + intros [= <- <-]. left. eauto.
    + destruct (remaining_budget p _) as [remaining|].
      * destruct (py_lt _ (current_interval s)).
        -- intros [= <- <-]. right. left. eauto.
        -- destruct (next_session p clock s); [discriminate|].
           intros [= <- <-]. do 4 right. eauto 6.
      * intros [= <- <-]. do 4 right. eauto 6.
    + intros [= <- <-]. do 2 right. left. eauto.
  - apply Qltb_ge in H. intros [= <- <-]. left. auto.
Qed.

Lemma next_session_Some s s' :
  next_session p clock s = Some s' →
  next_interval p (current_interval s) = Some (current_interval s') ∧
  attempt s' = (attempt s + 1)%Z ∧
  tick s' = S (S (tick s)) ∧
  trace s' = sleep_trace clock s.
Proof.
  unfold next_session.
  destruct (next_interval p (current_interval s)) as [x|]; [|discriminate].
  intros [= <-]. auto.
Qed.

Lemma next_interval_Some x y :
  next_interval p x = Some y →
  ∃ product, py_mul x (backoff p) = Some product ∧
             y = py_min (PFloat product) (PInt (max_interval p)).
Proof.
  unfold next_interval. destruct (py_mul x (backoff p)) as [product|];
    [|discriminate].
  intros [= <-]. eauto.
Qed.

(** *** Fuel *)

Lemma retry_loop_more fuel fuel' s x :
  retry_loop p executor clock fuel s = Some x →
  (fuel ≤ fuel')%nat →
  retry_loop p executor clock fuel' s = Some x.
Proof.
  revert fuel' s. induction fuel as [|fuel IH]; intros fuel' s; [discriminate|].
  destruct fuel' as [|fuel']; [lia|]. simpl.
  destruct (loop_body p executor clock s); [|tauto].
  intros H Hle. apply IH; [exact H | lia].
Qed.

(** *** The chain of sessions *)

Lemma session_at_succ j s s' :
  session_at p clock j = Some s →
  next_session p clock s = Some s' →
  session_at p clock (S j) = Some s'.
Proof. intros H N. simpl. now rewrite H. Qed.

Lemma session_at_fields j s :
  session_at p clock j = Some s →
  attempt s = (Z.of_nat j + 1)%Z ∧
  tick s = (2 * j)%nat ∧
  interval_at p j = Some (current_interval s) ∧
  issued (trace s) = Z.of_nat j ∧
  sleeps (trace s) = j.
Proof.
  revert s. induction j as [|j IH]; intros s.
  - intros [= <-]. repeat split.
  - simpl session_at.
    destruct (session_at p clock j) as [s0|]; [|discriminate].
    destruct (IH s0 eq_refl) as (Ha & Ht & Hi & Hc & Hs).
    intros N. apply next_session_Some in N as (Ni & Na & Nt & Ntr).
    split; [lia|]. split; [lia|]. split; [|split].
    + simpl interval_at. now rewrite Hi.
    + rewrite Ntr. unfold sleep_trace. rewrite issued_app, Hc.
      unfold issued. simpl. lia.
    + rewrite Ntr. unfold sleep_trace. rewrite sleeps_app, Hs.
      unfold sleeps. simpl. lia.
Qed.

Lemma attempt_session_at j s :
  session_at p clock j = Some s → attempt s = (Z.of_nat j + 1)%Z.
Proof. intros H. apply (session_at_fields j s H). Qed.

Lemma tick_session_at j s :
  session_at p clock j = Some s → tick s = (2 * j)%nat.
Proof. intros H. apply (session_at_fields j s H). Qed.

Lemma interval_session_at j s :
  session_at p clock j = Some s → interval_at p j = Some (current_interval s).
Proof. intros H. apply (session_at_fields j s H). Qed.

Lemma issued_session_at j s :
  session_at p clock j = Some s → issued (trace s) = Z.of_nat j.
Proof. intros H. apply (session_at_fields j s H). Qed.

Lemma sleeps_session_at j s :
  session_at p clock j = Some s → sleeps (trace s) = j.
Proof. intros H. apply (session_at_fields j s H). Qed.

Lemma readings_session_at j s t :
  session_at p clock j = Some s →
  EvNow t ∈ trace s → ∃ i, (i < 2 * j)%nat ∧ t = clock i.
Proof.
  revert s. induction j as [|j IH]; intros s.
  - intros [= <-] H. inversion H.
  - simpl session_at.
    destruct (session_at p clock j) as [s0|] eqn:E; [|discriminate].
    intros N. apply next_session_Some in N as (_ & _ & _ & ->).
    unfold sleep_trace. rewrite (tick_session_at j s0 E), elem_of_app.
    intros [H|H].
    + destruct (IH s0 eq_refl H) as (i & Hi & ->). exists i. split; [lia|reflexivity].
    + rewrite !elem_of_cons, elem_of_nil in H.
      destruct_or!; simplify_eq.
      * exists (2 * j)%nat. split; [lia|reflexivity].
      * exists (S (2 * j)). split; [lia|reflexivity].
Qed.

Lemma sleep_events_session_at j s seconds :
  session_at p clock j = Some s →
  EvSleep seconds ∈ trace s → seconds = (1 # 10)%Q.
Proof.
  revert s. induction j as [|j IH]; intros s.
  - intros [= <-] H. inversion H.
  - simpl session_at.
    destruct (session_at p clock j) as [s0|] eqn:E; [|discriminate].
    intros N. apply next_session_Some in N as (_ & _ & _ & ->).
    unfold sleep_trace. rewrite elem_of_app. intros [H|H]; [now apply (IH s0)|].
    rewrite !elem_of_cons, elem_of_nil in H.
    destruct_or!; simplify_eq; reflexivity.
Qed.

Lemma printed_session_at j s :
  session_at p clock j = Some s →
  printed (trace s) = omap (interval_at p) (seq 0 j).
Proof.
  revert s. induction j as [|j IH]; intros s.
  - intros [= <-]. reflexivity.
  - simpl session_at.
    destruct (session_at p clock j) as [s0|] eqn:E; [|discriminate].
    intros N. apply next_session_Some in N as (_ & _ & _ & ->).
    unfold sleep_trace. rewrite printed_app, (IH s0 eq_refl), seq_S, omap_app.
    f_equal. simpl. now rewrite (interval_session_at j s0 E).
Qed.

Lemma proceeds_step j s :
  proceeds p executor clock j →
  session_at p clock j = Some s →
  ∃ s', session_at p clock (S j) = Some s' ∧
        loop_body p executor clock s = Continue s'.
Proof.
  intros (Hc & (code & message & He) & x & remaining & Hx & Hr & Ht & [y Hy]) Hs.
  destruct (session_at_fields j s Hs) as (Ha & Hk & Hi & _).
  rewrite Hx in Hi. injection Hi as ->.
  assert (N : ∃ s', next_session p clock s = Some s').
  { unfold next_session, next_interval. rewrite Hy. eauto. }
  destruct N as [s' N]. exists s'. split; [now apply (session_at_succ j s)|].
  apply (loop_body_continue s s' code message remaining).
  - now rewrite Hk.
  - now rewrite Ha.
  - now rewrite Hk.
  - exact Ht.
  - exact N.
Qed.

Lemma retry_loop_reaches n :
  (∀ i, (i < n)%nat → proceeds p executor clock i) →
  ∃ s, session_at p clock n = Some s ∧
    reachable p executor clock s ∧
    ∀ fuel, retry_loop p executor clock (n + fuel) (initial_session p)
            = retry_loop p executor clock fuel s.
Proof.
  induction n as [|n IH]; intros H.
  - exists (initial_session p). split; [reflexivity|].
    split; [apply reachable_init | reflexivity].
  - destruct IH as (s & Hs & Hre & Hrun); [intros i Hi; apply H; lia|].
    destruct (proceeds_step n s (H n ltac:(lia)) Hs) as (s' & Hs' & Hb).
    exists s'. split; [exact Hs'|].
    split; [apply (reachable_step _ _ _ s); assumption|]. intros fuel.
    replace (S n + fuel)%nat with (n + S fuel)%nat by lia.
    rewrite Hrun. simpl retry_loop. now rewrite Hb.
Qed.

Lemma retry_loop_skip n :
  (∀ i, (i < n)%nat → proceeds p executor clock i) →
  ∃ s, session_at p clock n = Some s ∧
    ∀ fuel, retry_loop p executor clock (n + fuel) (initial_session p)
            = retry_loop p executor clock fuel s.
Proof.
  intros H. destruct (retry_loop_reaches n H) as (s & Hs & _ & Hrun). eauto.
Qed.

Lemma reachable_session_at s :
  reachable p executor clock s → ∃ j, session_at p clock j = Some s.
Proof.
  induction 1 as [|s s' _ [j Hj] Hs].
  - now exists O.
  - apply loop_body_Continue_inv in Hs as [N _]. exists (S j).
    now apply (session_at_succ j s).
Qed.

(** A run that ends does so in some iteration [j'], after failures only. *)
Lemma retry_loop_exit fuel j s c tr :
  session_at p clock j = Some s →
  retry_loop p executor clock fuel s = Some (c, tr) →
  ∃ j' s', (j ≤ j')%nat ∧ session_at p clock j' = Some s' ∧
    (∀ i, (j ≤ i < j')%nat →
          ∃ code message, executor (Z.of_nat i + 1)%Z = ClientError code message) ∧
    loop_body p executor clock s' = Exit c tr.
Proof.
  revert j s. induction fuel as [|fuel IH]; intros j s Hs; [discriminate|].
  simpl.
  destruct (loop_body p executor clock s) as [s'|c' tr'] eqn:Hb.
  - apply loop_body_Continue_inv in Hb as (N & _ & He & _).
    rewrite (attempt_session_at j s Hs) in He.
    intros H.
    destruct (IH (S j) s' (session_at_succ j s s' Hs N) H)
      as (j' & s'' & Hj & Hs'' & Hfail & Hexit).
    exists j', s''. split; [lia|]. split; [exact Hs''|]. split; [|exact Hexit].
    intros i Hi. destruct (decide (i = j)) as [->|Hn]; [exact He|].
    apply Hfail. lia.
  - intros [= <- <-]. exists j, s. split; [lia|]. split; [exact Hs|].
    split; [|exact Hb]. intros i Hi. lia.
Qed.

(** *** Results *)

Lemma retry_loop_success_inv fuel s r tr :
  retry_loop p executor clock fuel s = Some (Returned r, tr) →
  success r = true →
  ∃ id, executor (attempts r) = Response id ∧
        capacityReservationId r = Some id ∧ error r = None.
Proof.
  revert s. induction fuel as [|fuel IH]; intros s; [discriminate|].
  simpl. destruct (loop_body p executor clock s) as [s'|c tr'] eqn:Hb.
  - apply IH.
  - intros [= -> ->].
    apply loop_body_Exit_inv in Hb
      as [([= ->] & _)|(_ & [(id & He & [= ->] & _)|[(code & message & _ & [= ->] & _)|
          [(what & _ & [=] & _)|[(what & _ & [=] & _)|(code & message & _ & [=] & _)]]]])];
      try discriminate.
    intros _. exists id. simpl. auto.
Qed.

(** How the reported attempt count relates to the calls made: equal on the
    exits that follow a call, one more on the exit through the loop
    condition. *)
Lemma retry_loop_attempts fuel j s r tr :
  session_at p clock j = Some s →
  retry_loop p executor clock fuel s = Some (Returned r, tr) →
  attempts r = issued tr
  ∨ (attempts r = (issued tr + 1)%Z ∧
     ∃ j' s', session_at p clock j' = Some s' ∧ r = exceeded_result p s').
Proof.
  intros Hs Hrun.
  destruct (retry_loop_exit fuel j s _ tr Hs Hrun)
    as (j' & s' & _ & Hs' & _ & Hexit).
  pose proof (attempt_session_at j' s' Hs') as Ha.
  pose proof (issued_session_at j' s' Hs') as Hi.
  apply loop_body_Exit_inv in Hexit
    as [([= ->] & -> & _)|(_ & [(id & He & [= ->] & ->)|[(code & message & _ & [= ->] & ->)|
        [(what & _ & [=] & _)|[(what & _ & [=] & _)|(code & message & _ & [=] & _)]]]])].
  - right. rewrite issued_app, Hi. simpl attempts. rewrite Ha.
    split; [unfold issued; simpl; lia|eauto].
  - left. unfold exit_trace. rewrite issued_app, Hi. simpl attempts.
    rewrite Ha. unfold issued; simpl; lia.
  - left. unfold exit_trace. rewrite issued_app, Hi. simpl attempts.
    rewrite Ha. unfold issued; simpl; lia.
Qed.

(** *** Termination *)

Section Clock.

Hypothesis clock_mono : ∀ n, elapsed n <= elapsed (S n).
Hypothesis sleep_min : ∀ j, elapsed (S (2 * j)) + (1 # 10) <= elapsed (2 * S j)%nat.

Lemma clock_le i j : (i ≤ j)%nat → elapsed i <= elapsed j.
Proof.
  induction 1 as [|j _ IH]; [apply Qle_refl|].
  eapply Qle_trans; [exact IH | apply clock_mono].
Qed.

Lemma retry_loop_terminates n j s :
  session_at p clock j = Some s →
  budget <= elapsed (2 * j)%nat + (Z.of_nat n # 10) →
  ∃ x, retry_loop p executor clock (S n) s = Some x.
Proof.
  revert j s. induction n as [|n IH]; intros j s Hs H.
  - simpl. rewrite loop_body_exceeded; [eauto|].
    rewrite (tick_session_at j s Hs). change (Z.of_nat 0 # 10) with (0 # 10) in H.
    assert (0 # 10 == 0) by reflexivity. lra.
  - change (retry_loop p executor clock (S (S n)) s)
      with (match loop_body p executor clock s with
            | Exit c tr => Some (c, tr)
            | Continue s' => retry_loop p executor clock (S n) s'
            end).
    destruct (loop_body p executor clock s) as [s'|c tr] eqn:Hb; [|eauto].
    apply loop_body_Continue_inv in Hb as [N _].
    apply (IH (S j) s' (session_at_succ j s s' Hs N)).
    rewrite tenths_succ in H.
    pose proof (sleep_min j). pose proof (clock_mono (2 * j)). lra.
Qed.

End Clock.

End RetryLoop.

(** ** Success *)

(** C1.  When the first [j] iterations go on to the next one (each call
    raises [ClientError] with budget left) and call number [j+1], reached
    before the deadline, returns a response, then the retry call returns
    [success = true], [attempts = j+1], the reservation id of that response,
    and [finalInterval] equal to the interval in force at iteration [j],
    after [j+1] calls to the executor.  Conversely a result with
    [success = true] is only ever returned for a call, numbered by the
    result's [attempts], that returned a response. *)
Theorem success_on_attempt_k (p : Params) (executor : Z → Outcome)
    (clock : nat → Reading) (j : nat) (id : string) :
  (∀ i, (i < j)%nat → proceeds p executor clock i) →
  (reading_value (clock (2 * j)%nat) < inject_Z (max_duration p))%Q →
  executor (Z.of_nat j + 1)%Z = Response id →
  (∀ fuel, (j < fuel)%nat →
     ∃ r tr, acquire p executor clock fuel = Some (Returned r, tr) ∧
       success r = true ∧
       attempts r = (Z.of_nat j + 1)%Z ∧
       capacityReservationId r = Some id ∧
       error r = None ∧
       interval_at p j = Some (finalInterval r) ∧
       totalDuration r = py_int (reading_value (clock (S (2 * j)))) ∧
       issued tr = (Z.of_nat j + 1)%Z)
  ∧ (∀ fuel r tr,
       acquire p executor clock fuel = Some (Returned r, tr) →
       success r = true →
       ∃ id', executor (attempts r) = Response id' ∧
              capacityReservationId r = Some id' ∧ error r = None).
Proof.
  intros Hgo Hc He. split.
  - intros fuel Hf.
    destruct (retry_loop_skip p executor clock j Hgo) as (s & Hs & Hrun).
    destruct (session_at_fields p clock j s Hs) as (Ha & Ht & Hi & Hn & _).
    exists (success_result id s (clock (S (2 * j)))), (exit_trace clock s).
    split.
    + apply (retry_loop_more p executor clock (j + 1)); [|lia].
      unfold acquire. rewrite Hrun. simpl retry_loop.
      rewrite (loop_body_success p executor clock _ id).
      * now rewrite Ht.
      * now rewrite Ht.
      * now rewrite Ha.
    + simpl. repeat split; try assumption.
      unfold exit_trace. rewrite issued_app, Hn.
      unfold issued. simpl. lia.
  - intros fuel r tr. apply retry_loop_success_inv.
Qed.

Lemma success_on_attempt_k_witness :
  ∃ r tr, acquire test_params intended_script eighth_clock 4
          = Some (Returned r, tr) ∧
    success r = true ∧ attempts r = 4%Z ∧
    capacityReservationId r = Some "cr-test-123456789"%string ∧
    finalInterval r = PFloat (double 240 0).
Proof.
  assert (Hgo : ∀ i, (i < 3)%nat →
                     proceeds test_params intended_script eighth_clock i).
  { intros i Hi. unfold proceeds.
    destruct i as [|[|[|i]]]; [| | |lia];
      (split; [reflexivity|]; split; [eexists _, _; reflexivity|];
       eexists _, _; split; [reflexivity|]; split; [reflexivity|];
       split; [reflexivity | eexists; reflexivity]). }
  assert (Hc : (reading_value (eighth_clock (2 * 3))
                < inject_Z (max_duration test_params))%Q) by reflexivity.
  assert (He : intended_script (Z.of_nat 3 + 1)%Z = Response "cr-test-123456789")
    by reflexivity.
  destruct (success_on_attempt_k test_params intended_script eighth_clock 3
              "cr-test-123456789" Hgo Hc He) as [H _].
  destruct (H 4%nat (Nat.lt_succ_diag_r 3))
    as (r & tr & Hr & Hs & Ha & Hi & _ & Hf & _).
  exists r, tr. repeat split; try assumption.
  assert (E : interval_at test_params 3 = Some (PFloat (double 240 0)))
    by reflexivity.
  congruence.
Defined.

(** ** The short-circuit on the remaining budget *)

Lemma py_eq_not_lt a b : py_eq a b = true → py_lt a b = false.
Proof.
  unfold py_eq, py_lt.
  destruct (num_value a) as [| |x|], (num_value b) as [| |y|];
    simpl; try discriminate; try reflexivity.
  intros H. apply Qeq_bool_iff in H. apply Qltb_ge. lra.
Qed.

(** C2, as the code has it.  In any loop state whose call raises
    [ClientError], if the remaining budget that line 127 computes
    ([max_duration - elapsed], a double) is strictly below the current
    interval, the call returns at once: [success] is false, the error reads
    "InsufficientCapacity after N attempts over E seconds" with N the attempt
    counter and E the elapsed seconds truncated to an integer, the counters
    are the current ones, and nothing is slept.  In particular, when
    [max_duration] is below the initial interval and the computed remaining
    budget is not above [max_duration], a first call that raises
    [ClientError] yields [success = false], [attempts = 1] after one call
    and no sleep. *)
Theorem insufficient_capacity_short_circuit (p : Params)
    (executor : Z → Outcome) (clock : nat → Reading) :
  (∀ s code message remaining fuel,
     (reading_value (clock (tick s)) < inject_Z (max_duration p))%Q →
     executor (attempt s) = ClientError code message →
     remaining_budget p (clock (S (tick s))) = Some remaining →
     py_lt (PFloat remaining) (current_interval s) = true →
     ∃ r tr, retry_loop p executor clock (S fuel) s = Some (Returned r, tr) ∧
       success r = false ∧
       capacityReservationId r = None ∧
       error r = Some ("InsufficientCapacity after " +:+ str_of_Z (attempt s)
                       +:+ " attempts over "
                       +:+ str_of_Z (py_int (reading_value (clock (S (tick s)))))
                       +:+ " seconds") ∧
       attempts r = attempt s ∧
       totalDuration r = py_int (reading_value (clock (S (tick s)))) ∧
       finalInterval r = current_interval s ∧
       sleeps tr = sleeps (trace s) ∧
       issued tr = (issued (trace s) + 1)%Z)
  ∧ (∀ code message remaining fuel,
       (max_duration p < initial_interval p)%Z →
       (reading_value (clock 0%nat) < inject_Z (max_duration p))%Q →
       executor 1%Z = ClientError code message →
       remaining_budget p (clock 1%nat) = Some remaining →
       py_le (PFloat remaining) (PInt (max_duration p)) = true →
       ∃ r tr, acquire p executor clock (S fuel) = Some (Returned r, tr) ∧
         success r = false ∧ attempts r = 1%Z ∧
         error r = Some (insufficient_message 1
                           (py_int (reading_value (clock 1%nat)))) ∧
         sleeps tr = 0%nat ∧ issued tr = 1%Z).
Proof.
  assert (Hgen : ∀ s code message remaining fuel,
     (reading_value (clock (tick s)) < inject_Z (max_duration p))%Q →
     executor (attempt s) = ClientError code message →
     remaining_budget p (clock (S (tick s))) = Some remaining →
     py_lt (PFloat remaining) (current_interval s) = true →
     retry_loop p executor clock (S fuel) s
     = Some (Returned (insufficient_result s (clock (S (tick s)))),
             exit_trace clock s)).
  { intros s code message remaining fuel Hc He Hr Ht. simpl.
    now rewrite (loop_body_insufficient p executor clock s code message remaining). }
  split.
  - intros s code message remaining fuel Hc He Hr Ht.
    eexists _, _. split; [apply (Hgen s code message remaining fuel Hc He Hr Ht)|].
    unfold exit_trace. rewrite sleeps_app, issued_app.
    repeat split;
      solve [unfold sleeps; simpl; lia | unfold issued; simpl; lia].
  - intros code message remaining fuel Hlt Hc He Hr Hle.
    eexists _, _. split.
    + apply (Hgen (initial_session p) code message remaining fuel Hc He Hr).
      simpl current_interval. now apply (py_le_lt_Z _ (max_duration p)).
    + repeat split.
Qed.

Lemma insufficient_capacity_short_circuit_witness :
  ∃ r tr, simulate_capacity_reservation short_budget_params eighth_clock 1
          = Some (Returned r, tr) ∧
    success r = false ∧ attempts r = 1%Z ∧
    error r = Some "InsufficientCapacity after 1 attempts over 0 seconds"%string ∧
    sleeps tr = 0%nat.
Proof.
  destruct (insufficient_capacity_short_circuit short_budget_params stub_script
              eighth_clock) as [_ H].
  destruct (H "InsufficientInstanceCapacity"%string
              "Simulated capacity not available"%string
              (float_sub (double 60 0) (reading_float (eighth_clock 1))) 0%nat)
    as (r & tr & Hr & Hs & Ha & He & Hz & _).
  - reflexivity.
  - reflexivity.
  - reflexivity.
  - reflexivity.
  - reflexivity.
  - exists r, tr. repeat split; assumption.
Defined.

(** C2, as the claim has it, fails.  The error text of the code is
    "InsufficientCapacity after ...", not "insufficient capacity after ...".
    And a budget below the initial interval does not always stop the first
    failure: with a budget of 36028797018964140 seconds and an initial
    interval of 36028797018964141, a first call that fails after one second
    leaves, exactly, less than the interval; the code computes the remaining
    budget in doubles as 36028797018964144, which is not below the interval,
    so it prints, sleeps, and makes a second call. *)
Lemma short_budget_counterexample :
  (∃ r tr, simulate_capacity_reservation short_budget_params eighth_clock 1
           = Some (Returned r, tr) ∧
     error r = Some "InsufficientCapacity after 1 attempts over 0 seconds"%string ∧
     error r ≠ Some "insufficient capacity after 1 attempts over 0 seconds"%string)
  ∧ (max_duration huge_budget_params < initial_interval huge_budget_params)%Z
  ∧ (reading_value (stalled_clock 0) < inject_Z (max_duration huge_budget_params))%Q
  ∧ stub_script 1
    = ClientError "InsufficientInstanceCapacity" "Simulated capacity not available"
  ∧ (inject_Z (max_duration huge_budget_params) - reading_value (stalled_clock 1)
     < inject_Z (initial_interval huge_budget_params))%Q
  ∧ remaining_budget huge_budget_params (stalled_clock 1)
    = Some (double 36028797018964144 0)
  ∧ py_lt (PFloat (double 36028797018964144 0))
          (PInt (initial_interval huge_budget_params)) = false
  ∧ (∃ s', loop_body huge_budget_params stub_script stalled_clock
             (initial_session huge_budget_params) = Continue s' ∧
           sleeps (trace s') = 1%nat ∧ attempt s' = 2%Z)
  ∧ ∃ r tr, simulate_capacity_reservation huge_budget_params stalled_clock 2
            = Some (Returned r, tr) ∧
      attempts r = 2%Z ∧ sleeps tr = 1%nat ∧ issued tr = 2%Z.
Proof.
  split; [eexists _, _; split; [reflexivity|]; split; [reflexivity|discriminate]|].
  do 6 (split; [reflexivity|]).
  split; [eexists; split; [reflexivity|]; split; reflexivity|].
  eexists _, _. split; [reflexivity|]. repeat split.
Qed.

(** ** The boundary of the short-circuit *)

(** C3, as the code has it.  The test of line 129 is the strict
    [remaining < current_interval].  When the budget left after a
    [ClientError] equals the current interval the test is false: the
    iteration prints, sleeps, updates the interval, increments the attempt
    counter and goes back to the loop condition (the update of line 143
    fails with OverflowError when the interval is an int too large for a
    float; the sleep has taken place by then).  The insufficient-capacity
    result is returned exactly when the budget left is strictly below the
    interval. *)
Theorem boundary_is_strict (p : Params) (executor : Z → Outcome)
    (clock : nat → Reading) (s : Session) (code message : string)
    (remaining : spec_float) :
  (reading_value (clock (tick s)) < inject_Z (max_duration p))%Q →
  executor (attempt s) = ClientError code message →
  remaining_budget p (clock (S (tick s))) = Some remaining →
  (py_eq (PFloat remaining) (current_interval s) = true →
     loop_body p executor clock s
     = match next_session p clock s with
       | Some s' => Continue s'
       | None => Exit (Raised "OverflowError") (sleep_trace clock s)
       end ∧
     sleeps (step_trace (loop_body p executor clock s)) = S (sleeps (trace s)) ∧
     ∀ s', next_session p clock s = Some s' →
       loop_body p executor clock s = Continue s' ∧
       sleeps (trace s') = S (sleeps (trace s)) ∧
       attempt s' = (attempt s + 1)%Z ∧
       ∀ fuel, retry_loop p executor clock (S fuel) s
               = retry_loop p executor clock fuel s')
  ∧ (loop_body p executor clock s
       = Exit (Returned (insufficient_result s (clock (S (tick s)))))
              (exit_trace clock s)
     ↔ py_lt (PFloat remaining) (current_interval s) = true).
Proof.
  intros Hc He Hr. split.
  - intros Heq. apply py_eq_not_lt in Heq.
    pose proof (loop_body_sleep p executor clock s code message remaining
                  Hc He Hr Heq) as Hb.
    assert (Hs : sleeps (sleep_trace clock s) = S (sleeps (trace s))).
    { unfold sleep_trace. rewrite sleeps_app. unfold sleeps. simpl. lia. }
    split; [exact Hb|]. split.
    + rewrite Hb. destruct (next_session p clock s) as [s'|] eqn:N; [|exact Hs].
      apply next_session_Some in N as (_ & _ & _ & N). simpl. now rewrite N.
    + intros s' N. rewrite N in Hb.
      destruct (next_session_Some p clock s s' N) as (_ & Na & _ & Ntr).
      split; [exact Hb|]. split; [now rewrite Ntr|]. split; [exact Na|].
      intros fuel. simpl. now rewrite Hb.
  - split.
    + intros Hb.
      destruct (py_lt (PFloat remaining) (current_interval s)) eqn:Ht;
        [reflexivity|].
      rewrite (loop_body_sleep p executor clock s code message remaining
                 Hc He Hr Ht) in Hb.
      destruct (next_session p clock s); discriminate.
    + apply (loop_body_insufficient p executor clock s code message remaining
               Hc He Hr).
Qed.

Lemma boundary_is_strict_witness :
  ∃ s', next_session boundary_params boundary_clock
          (initial_session boundary_params) = Some s' ∧
    loop_body boundary_params stub_script boundary_clock
      (initial_session boundary_params) = Continue s' ∧
    attempt s' = 2%Z.
Proof.
  destruct (boundary_is_strict boundary_params stub_script boundary_clock
              (initial_session boundary_params)
              "InsufficientInstanceCapacity" "Simulated capacity not available"
              (double 30 0)) as [H _].
  - reflexivity.
  - reflexivity.
  - reflexivity.
  - destruct (H eq_refl) as (_ & _ & H').
    eexists. split; [reflexivity|].
    destruct (H' _ eq_refl) as (Hb & _ & Ha & _). split; assumption.
Defined.

(** C3, as the claim has it, fails.  With a budget of 60 seconds, an
    interval of 30 and a first call that raises [ClientError] at second 30,
    the budget left equals the interval; the call does not fail there but
    sleeps and issues attempt 2. *)
Lemma boundary_counterexample :
  let s := initial_session boundary_params in
  remaining_budget boundary_params (boundary_clock (S (tick s)))
  = Some (double 30 0)
  ∧ py_eq (PFloat (double 30 0)) (current_interval s) = true
  ∧ (inject_Z (max_duration boundary_params)
       - reading_value (boundary_clock (S (tick s))) == 30)%Q
  ∧ stub_script (attempt s)
    = ClientError "InsufficientInstanceCapacity" "Simulated capacity not available"
  ∧ loop_body boundary_params stub_script boundary_clock s
    ≠ Exit (Returned (insufficient_result s (boundary_clock (S (tick s)))))
           (exit_trace boundary_clock s)
  ∧ ∃ r tr, simulate_capacity_reservation boundary_params boundary_clock 2
            = Some (Returned r, tr) ∧
      attempts r = 2%Z ∧ sleeps tr = 1%nat ∧ issued tr = 2%Z.
Proof.
  repeat split.
  - vm_compute. discriminate.
  - eexists _, _. repeat split.
Qed.

(** ** Errors that are not capacity errors *)

(** C4, as the code has it.  The loop does not classify failures.  Every
    [ClientError], whatever its code and message, is handled as a retryable
    failure: two executors that differ only in the codes and messages of
    their [ClientError]s give the same run, and a [ClientError] with budget
    left goes on to the sleep and the next attempt.  An exception that is
    not a [ClientError] is not caught: it leaves the function on that
    attempt, with no further call and no sleep, and no result is
    returned. *)
Theorem client_errors_all_retried (p : Params) (executor executor' : Z → Outcome)
    (clock : nat → Reading) :
  (∀ a, same_kind (executor a) (executor' a)) →
  (∀ fuel s, retry_loop p executor clock fuel s
             = retry_loop p executor' clock fuel s)
  ∧ (∀ s code message remaining,
       (reading_value (clock (tick s)) < inject_Z (max_duration p))%Q →
       executor (attempt s) = ClientError code message →
       remaining_budget p (clock (S (tick s))) = Some remaining →
       py_lt (PFloat remaining) (current_interval s) = false →
       loop_body p executor clock s
       = match next_session p clock s with
         | Some s' => Continue s'
         | None => Exit (Raised "OverflowError") (sleep_trace clock s)
         end ∧
       sleeps (step_trace (loop_body p executor clock s)) = S (sleeps (trace s)))
  ∧ (∀ s what fuel,
       (reading_value (clock (tick s)) < inject_Z (max_duration p))%Q →
       executor (attempt s) = OtherException what →
       retry_loop p executor clock (S fuel) s
       = Some (Raised what,
               trace s ++ [EvNow (clock (tick s)); EvAttempt (attempt s)])).
Proof.
  intros Hk. split; [|split].
  - intros fuel. induction fuel as [|fuel IH]; intros s; [reflexivity|].
    simpl.
    assert (Hb : loop_body p executor clock s = loop_body p executor' clock s).
    { unfold loop_body. specialize (Hk (attempt s)).
      destruct (executor (attempt s)), (executor' (attempt s));
        simpl in Hk; try contradiction; subst; reflexivity. }
    rewrite Hb. destruct (loop_body p executor' clock s); [apply IH|reflexivity].
  - intros s code message remaining Hc He Hr Ht.
    pose proof (loop_body_sleep p executor clock s code message remaining
                  Hc He Hr Ht) as Hb.
    split; [exact Hb|]. rewrite Hb.
    assert (Hs : sleeps (sleep_trace clock s) = S (sleeps (trace s))).
    { unfold sleep_trace. rewrite sleeps_app. unfold sleeps. simpl. lia. }
    destruct (next_session p clock s) as [s'|] eqn:N; [|exact Hs].
    apply next_session_Some in N as (_ & _ & _ & N). simpl. now rewrite N.
  - intros s what fuel Hc He. simpl.
    now rewrite (loop_body_raise p executor clock s what).
Qed.

Lemma client_errors_all_retried_witness :
  acquire test_params fatal_then_ok eighth_clock 2
  = acquire test_params capacity_then_ok eighth_clock 2.
Proof.
  apply (client_errors_all_retried test_params fatal_then_ok capacity_then_ok
           eighth_clock).
  intros a. unfold fatal_then_ok, capacity_then_ok.
  destruct (a =? 1)%Z; simpl; reflexivity.
Defined.

(** C4, as the claim has it, fails.  A first call that raises a
    [ClientError] for a malformed request is retried: the call sleeps,
    issues attempt 2 and returns its success.  A call that raises another
    exception ends the function with that exception, not with a result
    whose [success] is false. *)
Lemma fatal_failure_counterexample :
  fatal_then_ok 1 = ClientError "InvalidParameterValue" "malformed request"
  ∧ (∃ r tr, acquire test_params fatal_then_ok eighth_clock 2
             = Some (Returned r, tr) ∧
       success r = true ∧ attempts r = 2%Z ∧
       sleeps tr = 1%nat ∧ issued tr = 2%Z)
  ∧ acquire test_params raising_script eighth_clock 1
    = Some (Raised "ParamValidationError",
            [EvNow (eighth_clock 0); EvAttempt 1]).
Proof.
  repeat split. eexists _, _. repeat split.
Qed.

(** ** Growth of the interval *)

Lemma next_interval_cap (p : Params) (x y : PyNum) :
  next_interval p x = Some y → py_lt (PInt (max_interval p)) y = false.
Proof.
  intros H. apply next_interval_Some in H as (product & _ & ->).
  apply py_lt_min_r.
Qed.






(** ** Termination and the bound on the elapsed time *)

Section Bounds.

Open Scope Q_scope.

Variables (p : Params) (executor : Z → Outcome) (clock : nat → Reading).
Variables (L W : Q).

Abbreviation budget := (inject_Z (max_duration p)).
Abbreviation elapsed n := (reading_value (clock n)).

(** What one evaluation of the loop condition and body adds to the trace:
    the reading of the loop condition and, only when that reading is below
    [max_duration], the call and what follows it. *)
Lemma step_events s :
  ∃ ev, step_trace (loop_body p executor clock s) = trace s ++ ev ∧
    ∀ e, e ∈ ev →
      e = EvNow (clock (tick s))
      ∨ (elapsed (tick s) < budget ∧
         (e = EvAttempt (attempt s) ∨ e = EvNow (clock (S (tick s)))
          ∨ e = EvPrint (attempt s) (current_interval s)
          ∨ e = EvSleep (1 # 10))).
Proof.
  unfold loop_body.
  destruct (Qltb (elapsed (tick s)) budget) eqn:Hc;
    [apply Qltb_lt in Hc;
     destruct (executor (attempt s)) as [what|id|code message|what];
     [| |destruct (remaining_budget p _) as [remaining|];
         [destruct (py_lt _ (current_interval s));
          [|destruct (next_session p clock s) as [s'|] eqn:N;
            [apply next_session_Some in N as (_ & _ & _ & N); simpl;
             rewrite N|]]|]|]|];
    (eexists; split; [reflexivity|]);
    intros e He; rewrite !elem_of_cons, elem_of_nil in He;
    destruct_or!; subst; auto 7; contradiction.
Qed.

Hypothesis budget_nonneg : (0 ≤ max_duration p)%Z.
Hypothesis first_reading : 0 <= elapsed 0 <= W.
Hypothesis clock_mono : ∀ n, elapsed n <= elapsed (S n).
Hypothesis sleep_max : ∀ j, elapsed (2 * S j)%nat <= elapsed (S (2 * j)) + W.
Hypothesis latency : ∀ j, attempt_latency clock j <= L.

Lemma latency_nonneg : 0 <= L.
Proof.
  pose proof (latency O) as H. pose proof (clock_mono O) as H'.
  unfold attempt_latency in H. simpl in H. lra.
Qed.

Lemma budget_nonneg_Q : 0 <= budget.
Proof. change 0 with (inject_Z 0). rewrite <- Zle_Qle. exact budget_nonneg. Qed.

Lemma bounded_step j s :
  session_at p clock j = Some s →
  elapsed (2 * j)%nat <= budget + L + W →
  (∀ t, EvNow t ∈ trace s → reading_value t <= budget + L + W) →
  (∀ a, EvAttempt a ∈ trace s →
        ∃ i, a = (Z.of_nat i + 1)%Z ∧ elapsed (2 * i)%nat < budget) →
  (∀ t, EvNow t ∈ step_trace (loop_body p executor clock s) →
        reading_value t <= budget + L + W) ∧
  (∀ a, EvAttempt a ∈ step_trace (loop_body p executor clock s) →
        ∃ i, a = (Z.of_nat i + 1)%Z ∧ elapsed (2 * i)%nat < budget).
Proof.
  intros Hs Hj Hnow Hatt.
  destruct (session_at_fields p clock j s Hs) as (Ha & Ht & _).
  pose proof latency_nonneg as HL. destruct first_reading as [H0 HW].
  assert (HW0 : 0 <= W) by lra.
  pose proof (latency j) as Hl. unfold attempt_latency in Hl.
  destruct (step_events s) as (ev & -> & Hev). rewrite Ht, Ha in Hev.
  split.
  - intros t H. apply elem_of_app in H as [H|H]; [now apply Hnow|].
    apply Hev in H as [H|[Hc [H|[H|[H|H]]]]]; try discriminate H;
      injection H as ->; change (j + (j + 0))%nat with (2 * j)%nat; lra.
  - intros a H. apply elem_of_app in H as [H|H]; [now apply Hatt|].
    apply Hev in H as [H|[Hc [H|[H|[H|H]]]]]; try discriminate H.
    injection H as ->. exists j. auto.
Qed.

Lemma exit_bound fuel : ∀ j s c tr,
  session_at p clock j = Some s →
  elapsed (2 * j)%nat <= budget + L + W →
  (∀ t, EvNow t ∈ trace s → reading_value t <= budget + L + W) →
  (∀ a, EvAttempt a ∈ trace s →
        ∃ i, a = (Z.of_nat i + 1)%Z ∧ elapsed (2 * i)%nat < budget) →
  retry_loop p executor clock fuel s = Some (c, tr) →
  (∀ a, EvAttempt a ∈ tr →
        ∃ i, a = (Z.of_nat i + 1)%Z ∧ elapsed (2 * i)%nat < budget) ∧
  (∀ t, EvNow t ∈ tr → reading_value t <= budget + L + W) ∧
  (∀ r, c = Returned r → inject_Z (totalDuration r) <= budget + L).
Proof.
  pose proof latency_nonneg as HL. destruct first_reading as [H0 HW].
  assert (Hpos : ∀ n, 0 <= elapsed n).
  { intros n. pose proof (clock_le clock clock_mono O n ltac:(lia)). lra. }
  induction fuel as [|fuel IH]; intros j s c tr Hs Hj Hnow0 Hatt0; [discriminate|].
  destruct (bounded_step j s Hs Hj Hnow0 Hatt0) as [Hnow Hatt].
  destruct (session_at_fields p clock j s Hs) as (Ha & Ht & _).
  simpl.
  destruct (loop_body p executor clock s) as [s'|c' tr'] eqn:Hb.
  - apply IH with (j := S j); try assumption.
    + apply loop_body_Continue_inv in Hb as (N & _).
      now apply (session_at_succ p clock j s).
    + apply loop_body_Continue_inv in Hb as (_ & Hc & _).
      rewrite Ht in Hc. pose proof (sleep_max j).
      pose proof (latency j) as Hl. unfold attempt_latency in Hl. lra.
  - intros [= -> ->]. split; [exact Hatt|]. split; [exact Hnow|].
    intros r ->.
    pose proof (latency j) as Hl. unfold attempt_latency in Hl.
    pose proof (py_int_le _ (Hpos (S (2 * j)))) as Hint.
    pose proof budget_nonneg_Q as Hd.
    apply loop_body_Exit_inv in Hb
      as [(Hr & _)|(Hc & [(id & _ & Hr & _)|[(code & message & _ & Hr & _)|
          [(what & _ & Hr & _)|[(what & _ & Hr & _)|(code & message & _ & Hr & _)]]]])];
      try discriminate Hr; injection Hr as ->;
      cbn [totalDuration success_result insufficient_result exceeded_result];
      rewrite ?Ht in *; lra.
Qed.

End Bounds.

(** C6, as the code has it.  For a budget that is not negative, every
    executor script and every interval and multiplier, on a clock that
    never runs backwards, whose first reading is taken within [W] seconds of
    the start and on which each [time.sleep(0.1)] lasts at least a tenth of
    a second and at most [W] seconds: the retry call ends within
    [10 * max_duration + 1] iterations; every call is made while the elapsed
    time is below [max_duration]; the [totalDuration] of a result is at most
    [max_duration] plus the longest time [L] one call takes; and every
    elapsed time the call reads is at most [max_duration + L + W]. *)
Theorem acquire_terminates (p : Params) (executor : Z → Outcome)
    (clock : nat → Reading) (L W : Q) :
  (0 ≤ max_duration p)%Z →
  (0 <= reading_value (clock 0%nat) <= W)%Q →
  (∀ n, reading_value (clock n) <= reading_value (clock (S n)))%Q →
  (∀ j, reading_value (clock (S (2 * j))) + (1 # 10)
        <= reading_value (clock (2 * S j)%nat))%Q →
  (∀ j, reading_value (clock (2 * S j)%nat)
        <= reading_value (clock (S (2 * j))) + W)%Q →
  (∀ j, attempt_latency clock j <= L)%Q →
  ∀ fuel, (Z.to_nat (10 * max_duration p) < fuel)%nat →
    ∃ c tr, acquire p executor clock fuel = Some (c, tr) ∧
      (∀ a, EvAttempt a ∈ tr →
            ∃ i, a = (Z.of_nat i + 1)%Z ∧
                 (reading_value (clock (2 * i)%nat) < inject_Z (max_duration p))%Q) ∧
      (∀ t, EvNow t ∈ tr →
            (reading_value t <= inject_Z (max_duration p) + L + W)%Q) ∧
      (∀ r, c = Returned r →
            (inject_Z (totalDuration r) <= inject_Z (max_duration p) + L)%Q).
Proof.
  intros Hd H0 Hmono Hmin Hmax Hlat fuel Hf.
  destruct (retry_loop_terminates p executor clock Hmono Hmin
              (Z.to_nat (10 * max_duration p)) O (initial_session p) eq_refl)
    as [[c tr] Hx].
  { pose proof (tenths_cover (max_duration p)). simpl. lra. }
  assert (Hrun : acquire p executor clock fuel = Some (c, tr)).
  { apply (retry_loop_more p executor clock _ fuel) in Hx; [exact Hx | lia]. }
  exists c, tr. split; [exact Hrun|].
  assert (HL : (0 <= L)%Q) by apply (latency_nonneg clock L Hmono Hlat).
  assert (HB : (0 <= inject_Z (max_duration p))%Q)
    by apply (budget_nonneg_Q p Hd).
  apply (exit_bound p executor clock L W Hd H0 Hmono Hmax Hlat fuel O
           (initial_session p) c tr eq_refl); [simpl; lra| | |exact Hrun];
    intros x H; inversion H.
Qed.

Lemma acquire_terminates_witness :
  ∃ c tr, simulate_capacity_reservation boundary_params eighth_clock 601
          = Some (c, tr) ∧
    (∀ t, EvNow t ∈ tr → (reading_value t <= inject_Z 60 + (1 # 8) + (1 # 8))%Q) ∧
    (∀ r, c = Returned r → (inject_Z (totalDuration r) <= inject_Z 60 + (1 # 8))%Q).
Proof.
  destruct (acquire_terminates boundary_params stub_script eighth_clock
              (1 # 8) (1 # 8)) with (fuel := 601%nat)
    as (c & tr & Hrun & _ & Hnow & Hres).
  - vm_compute. discriminate.
  - split; vm_compute; discriminate.
  - intros n. rewrite !reading_value_eighth, eighths_succ. lra.
  - intros j. rewrite !reading_value_eighth.
    replace (2 * S j)%nat with (S (S (2 * j))) by lia.
    rewrite !eighths_succ. lra.
  - intros j. rewrite !reading_value_eighth.
    replace (2 * S j)%nat with (S (S (2 * j))) by lia.
    rewrite !eighths_succ. lra.
  - intros j. unfold attempt_latency. rewrite !reading_value_eighth, eighths_succ.
    lra.
  - change (max_duration boundary_params) with 60%Z. lia.
  - exists c, tr. split; [exact Hrun|]. split; assumption.
Defined.

(** C6, as the claim has it, fails: what bounds the elapsed time is the
    clock, not the policy.  With a valid policy of a 60 second budget whose
    first call fails within a second, a sleep that returns at second 200
    lets the call run until second 200, with every call taking at most one
    second. *)
Lemma slow_sleep_counterexample :
  (0 < max_duration boundary_params)%Z
  ∧ (0 < initial_interval boundary_params)%Z
  ∧ (initial_interval boundary_params ≤ max_interval boundary_params)%Z
  ∧ py_lt (PInt 1) (PFloat (backoff boundary_params)) = true
  ∧ (∀ j, attempt_latency overshoot_clock j <= 1)%Q
  ∧ ∃ c tr, simulate_capacity_reservation boundary_params overshoot_clock 2
            = Some (c, tr) ∧
      EvNow (seconds 200) ∈ tr ∧
      (inject_Z (max_duration boundary_params) + 1
       < reading_value (seconds 200))%Q.
Proof.
  do 2 (split; [reflexivity|]).
  split; [vm_compute; discriminate|]. split; [reflexivity|].
  split.
  - intros [|j].
    + vm_compute. discriminate.
    + unfold attempt_latency.
      replace (2 * S j)%nat with (S (S (2 * j))) by lia.
      simpl overshoot_clock. lra.
  - eexists _, _. split; [reflexivity|]. split; [|reflexivity].
    simpl. rewrite !elem_of_cons. auto 10.
Qed.

(** The clock has to advance for the loop to end: on a clock that stands
    still, with a script that always fails, no number of iterations ends the
    loop of the sample parameters. *)
Lemma frozen_clock_never_ends (fuel : nat) :
  acquire test_params failing_script frozen_clock fuel = None.
Proof.
  assert (Hstep : ∀ s,
    current_interval s ∈ [PInt 30; PFloat (double 60 0); PFloat (double 120 0);
                          PFloat (double 240 0); PInt 300] →
    ∃ s', loop_body test_params failing_script frozen_clock s = Continue s' ∧
      current_interval s' ∈ [PInt 30; PFloat (double 60 0);
                             PFloat (double 120 0); PFloat (double 240 0);
                             PInt 300]).
  { intros [x a t tr] H. simpl in H.
    rewrite !elem_of_cons, elem_of_nil in H.
    destruct_or!; subst x; try contradiction;
      (eexists; split; [reflexivity|]; simpl; rewrite !elem_of_cons; auto 10). }
  unfold acquire.
  assert (H : ∀ s,
    current_interval s ∈ [PInt 30; PFloat (double 60 0); PFloat (double 120 0);
                          PFloat (double 240 0); PInt 300] →
    retry_loop test_params failing_script frozen_clock fuel s = None).
  { induction fuel as [|fuel IH]; intros s Hs; [reflexivity|].
    simpl. destruct (Hstep s Hs) as (s' & -> & Hs'). now apply IH. }
  apply H. simpl. rewrite !elem_of_cons. auto.
Qed.

(** ** The attempt count on each exit *)

(** The count reported equals the number of calls made on the exits that
    follow a call; on the exit through the loop condition it is one more. *)
Lemma attempts_vs_issued (p : Params) (executor : Z → Outcome)
    (clock : nat → Reading) (fuel : nat) (r : RetryResult) (tr : list Event) :
  acquire p executor clock fuel = Some (Returned r, tr) →
  attempts r = issued tr
  ∨ (attempts r = (issued tr + 1)%Z ∧
     ∃ j s, session_at p clock j = Some s ∧ r = exceeded_result p s).
Proof. apply (retry_loop_attempts p executor clock fuel O _ r tr eq_refl). Qed.

(** C7 fails on the exit through the loop condition.  With a budget of zero
    minutes the loop is not entered: no call is made, and the result reports
    one attempt.  With a one-minute budget and a sleep that outlasts it after
    the first failure, one call is made and the result reports two.  The
    elapsed time is reported on both. *)
Theorem exceeded_exit_overcounts :
  (∃ r tr, simulate_capacity_reservation zero_budget_params eighth_clock 1
           = Some (Returned r, tr) ∧
     success r = false ∧
     error r = Some "Exceeded maximum retry duration (0 seconds) after 1 attempts"%string ∧
     attempts r = 1%Z ∧ issued tr = 0%Z ∧ totalDuration r = 0%Z)
  ∧ (∃ r tr, simulate_capacity_reservation boundary_params stalled_clock 2
             = Some (Returned r, tr) ∧
       success r = false ∧
       error r = Some "Exceeded maximum retry duration (60 seconds) after 2 attempts"%string ∧
       attempts r = 2%Z ∧ issued tr = 1%Z ∧ totalDuration r = 60%Z).
Proof.
  split; eexists _, _; repeat split.
Qed.

(** ** Policy values are not checked *)




(** * Further properties of the retry loop *)




(** X2.  Whatever the executor and the clock, a returned result has exactly
    one of [capacityReservationId] and [error]: the id with [success = true],
    the error with [success = false]; and it reports at least one attempt. *)
Theorem result_id_xor_error (p : Params) (executor : Z → Outcome)
    (clock : nat → Reading) (fuel : nat) (r : RetryResult) (tr : list Event) :
  acquire p executor clock fuel = Some (Returned r, tr) →
  ((success r = true ∧ is_Some (capacityReservationId r) ∧ error r = None)
   ∨ (success r = false ∧ capacityReservationId r = None ∧ is_Some (error r)))
  ∧ (1 ≤ attempts r)%Z.
Proof.
  intros Hrun.
  destruct (retry_loop_exit p executor clock fuel O _ _ tr eq_refl Hrun)
    as (j & s & _ & Hs & _ & Hexit).
  pose proof (attempt_session_at p clock j s Hs) as Ha.
  apply loop_body_Exit_inv in Hexit
    as [(Hr & _)|(_ & [(id & _ & Hr & _)|[(code & message & _ & Hr & _)|
        [(what & _ & Hr & _)|[(what & _ & Hr & _)|(code & message & _ & Hr & _)]]]])];
    try discriminate Hr; injection Hr as ->;
    simpl; rewrite Ha; (split; [|lia]); eauto.
Qed.

Lemma result_id_xor_error_witness :
  ∃ r tr, acquire boundary_params stub_script stalled_clock 2
          = Some (Returned r, tr) ∧
    success r = false ∧ capacityReservationId r = None ∧ is_Some (error r).
Proof.
  eexists _, _. split; [reflexivity|].
  destruct (result_id_xor_error boundary_params stub_script stalled_clock 2 _ _
              eq_refl) as [[(H & _)|H] _]; [discriminate H | exact H].
Defined.

(** X3.  Every retry is preceded by exactly one sleep of a tenth of a
    second: a returned result that reports [n] attempts comes after [n - 1]
    calls of [time.sleep], each for 0.1 seconds, whatever the current
    interval was. *)
Theorem sleeps_before_result (p : Params) (executor : Z → Outcome)
    (clock : nat → Reading) (fuel : nat) (r : RetryResult) (tr : list Event) :
  acquire p executor clock fuel = Some (Returned r, tr) →
  Z.of_nat (sleeps tr) = (attempts r - 1)%Z ∧
  ∀ seconds, EvSleep seconds ∈ tr → seconds = (1 # 10)%Q.
Proof.
  intros Hrun.
  destruct (retry_loop_exit p executor clock fuel O _ _ tr eq_refl Hrun)
    as (j & s & _ & Hs & _ & Hexit).
  assert (Hold := sleep_events_session_at p clock j s).
  destruct (session_at_fields p clock j s Hs) as (Ha & _ & _ & _ & Hsl).
  apply loop_body_Exit_inv in Hexit
    as [(Hr & -> & _)|(_ & [(id & _ & Hr & ->)|[(code & message & _ & Hr & ->)|
        [(what & _ & Hr & _)|[(what & _ & Hr & _)|(code & message & _ & Hr & _)]]]])];
    try discriminate Hr; injection Hr as ->;
    unfold exit_trace; simpl attempts;
    rewrite Ha, sleeps_app, Hsl;
    (split; [unfold sleeps; simpl; lia|]);
    intros seconds H; apply elem_of_app in H as [H|H]; try (now apply Hold);
    rewrite !elem_of_cons, elem_of_nil in H; destruct_or!; simplify_eq.
Qed.

Lemma sleeps_before_result_witness :
  ∃ r tr, acquire test_params intended_script eighth_clock 4
          = Some (Returned r, tr) ∧
    Z.of_nat (sleeps tr) = (attempts r - 1)%Z.
Proof.
  eexists _, _. split; [reflexivity|].
  apply (sleeps_before_result test_params intended_script eighth_clock 4 _ _
           eq_refl).
Defined.

(** ** The run of [test_simulation] *)

(** A remaining budget of at least 120 seconds is below none of the first
    three intervals of the sample parameters. *)
Lemma budget_left (remaining : spec_float) (x : PyNum) :
  py_le (PInt 120) (PFloat remaining) = true →
  x ∈ [PInt 30; PFloat (double 60 0); PFloat (double 120 0)] →
  py_lt (PFloat remaining) x = false.
Proof.
  unfold py_le, py_lt, py_eq. simpl num_value.
  intros H Hx.
  assert (Hq : ∃ q, num_value x = EFinite q ∧ (q <= 120)%Q).
  { rewrite !elem_of_cons, elem_of_nil in Hx. destruct_or!; subst x;
      try contradiction; eexists; (split; [reflexivity|]);
      vm_compute; discriminate. }
  destruct Hq as (q & -> & Hq).
  destruct (float_value remaining) as [| |r|]; cbn [ext_ltb ext_eqb orb] in *;
    try discriminate; try reflexivity.
  change (inject_Z 120) with 120%Q in H.
  apply Qltb_ge. apply orb_true_iff in H as [H|H].
  - apply Qltb_lt in H. lra.
  - apply Qeq_bool_iff in H. lra.
Qed.

(** X7.  [test_simulation] returns no dictionary.  On every clock whose
    loop-condition readings stay below 3600 seconds for the first four
    iterations and on which at least 120 seconds of budget are left, as line
    127 computes it, after each of the first three calls, the run on the
    sample parameters makes three calls, prints the intervals 30, 60.0 and
    120.0, sleeps three times, and is ended by the ParamValidationError that
    [stubber.add_response] raises when the stub is armed for the fourth
    attempt. *)
Theorem test_simulation_raises (clock : nat → Reading) (fuel : nat) :
  (4 ≤ fuel)%nat →
  (∀ i, (i ≤ 3)%nat → (reading_value (clock (2 * i)%nat) < 3600)%Q) →
  (∀ i, (i < 3)%nat →
     ∃ remaining,
       remaining_budget test_params (clock (S (2 * i))) = Some remaining ∧
       py_le (PInt 120) (PFloat remaining) = true) →
  ∃ tr, test_simulation clock fuel = Some (Raised "ParamValidationError", tr) ∧
    issued tr = 3%Z ∧ sleeps tr = 3%nat ∧
    printed tr = [PInt 30; PFloat (double 60 0); PFloat (double 120 0)].
Proof.
  intros Hf Hclock Hleft.
  assert (Hgo : ∀ i, (i < 3)%nat → proceeds test_params stub_script clock i).
  { intros i Hi. unfold proceeds. split; [|split].
    - apply (Hclock i). lia.
    - destruct i as [|[|[|i]]]; [| | |lia]; eexists _, _; reflexivity.
    - destruct (Hleft i Hi) as (remaining & Hr & Hle).
      assert (Hx : ∃ x, interval_at test_params i = Some x ∧
                     x ∈ [PInt 30; PFloat (double 60 0); PFloat (double 120 0)] ∧
                     is_Some (py_mul x (backoff test_params))).
      { destruct i as [|[|[|i]]]; [| | |lia];
          (eexists; split; [reflexivity|]; split;
             [rewrite !elem_of_cons; auto | eexists; reflexivity]). }
      destruct Hx as (x & Hx & Hin & Hm).
      exists x, remaining. split; [exact Hx|]. split; [exact Hr|].
      split; [now apply budget_left | exact Hm]. }
  destruct (retry_loop_skip test_params stub_script clock 3 Hgo)
    as (s & Hs & Hrun).
  destruct (session_at_fields test_params clock 3 s Hs) as (Ha & Ht & _ & Hi & Hsl).
  exists (trace s ++ [EvNow (clock (tick s))]).
  split; [|split; [|split]].
  - apply (retry_loop_more test_params stub_script clock (3 + 1)); [|lia].
    unfold test_simulation, simulate_capacity_reservation, acquire.
    rewrite Hrun. simpl retry_loop.
    rewrite (loop_body_stub_error test_params stub_script clock s
               "ParamValidationError"); [reflexivity| |].
    + rewrite Ht. apply (Hclock 3%nat). lia.
    + now rewrite Ha.
  - rewrite issued_app, Hi. reflexivity.
  - rewrite sleeps_app, Hsl. reflexivity.
  - rewrite printed_app, app_nil_r.
    now rewrite (printed_session_at test_params clock 3 s Hs).
Qed.

Lemma test_simulation_raises_witness :
  ∃ tr, test_simulation eighth_clock 4
        = Some (Raised "ParamValidationError", tr) ∧ issued tr = 3%Z.
Proof.
  destruct (test_simulation_raises eighth_clock 4 (le_n 4))
    as (tr & Hrun & Hi & _).
  - intros i Hi. destruct i as [|[|[|[|i]]]]; [| | | |lia]; reflexivity.
  - intros i Hi. destruct i as [|[|[|i]]]; [| | |lia];
      (eexists; split; reflexivity).
  - exists tr. split; assumption.
Defined.

(** ** The reported interval and duration *)

(** X19.  Whatever the policy, the executor and the clock, a result that
    reports one attempt carries the initial interval, and a result that
    reports two or more carries an interval that has been through line 143:
    the cap [max_interval] is not below it, even when the initial interval
    was above the cap. *)
Theorem final_interval_capped (p : Params) (executor : Z → Outcome)
    (clock : nat → Reading) (fuel : nat) (r : RetryResult) (tr : list Event) :
  acquire p executor clock fuel = Some (Returned r, tr) →
  (attempts r = 1%Z ∧ finalInterval r = PInt (initial_interval p))
  ∨ ((2 ≤ attempts r)%Z ∧
     py_lt (PInt (max_interval p)) (finalInterval r) = false).
Proof.
  intros Hrun.
  destruct (retry_loop_exit p executor clock fuel O _ _ tr eq_refl Hrun)
    as (j & s & _ & Hs & _ & Hexit).
  pose proof (attempt_session_at p clock j s Hs) as Ha.
  assert (Hr : attempts r = attempt s ∧ finalInterval r = current_interval s).
  { apply loop_body_Exit_inv in Hexit
      as [(Hr & _)|(_ & [(id & _ & Hr & _)|[(code & message & _ & Hr & _)|
          [(what & _ & Hr & _)|[(what & _ & Hr & _)|(code & message & _ & Hr & _)]]]])];
      try discriminate Hr; injection Hr as ->; split; reflexivity. }
  destruct Hr as [-> ->]. rewrite Ha.
  destruct j as [|j].
  - left. injection Hs as <-. split; reflexivity.
  - right. split; [lia|]. simpl in Hs.
    destruct (session_at p clock j) as [s0|]; [|discriminate].
    apply next_session_Some in Hs as [N _].
    now apply (next_interval_cap p (current_interval s0)).
Qed.

Lemma final_interval_capped_witness :
  ∃ r tr, simulate_capacity_reservation boundary_params stalled_clock 2
          = Some (Returned r, tr) ∧
    (2 ≤ attempts r)%Z ∧
    py_lt (PInt (max_interval boundary_params)) (finalInterval r) = false.
Proof.
  eexists _, _. split; [reflexivity|].
  destruct (final_interval_capped boundary_params stub_script stalled_clock 2
              _ _ eq_refl) as [[H _]|H]; [discriminate H | exact H].
Defined.

(** X20.  The [totalDuration] of a result.  A result returned after a call
    (success or insufficient capacity) reports the elapsed time read after
    that call, truncated to whole seconds, and the loop condition held
    before the call.  The result of the exit through the loop condition
    reports [max_duration] itself, while the elapsed time read there is
    [max_duration] or more. *)
Theorem total_duration_reported (p : Params) (executor : Z → Outcome)
    (clock : nat → Reading) (fuel : nat) (r : RetryResult) (tr : list Event) :
  acquire p executor clock fuel = Some (Returned r, tr) →
  ∃ j, attempts r = (Z.of_nat j + 1)%Z ∧
    (((reading_value (clock (2 * j)%nat) < inject_Z (max_duration p))%Q ∧
      totalDuration r = py_int (reading_value (clock (S (2 * j)))) ∧
      issued tr = (Z.of_nat j + 1)%Z)
     ∨ ((inject_Z (max_duration p) <= reading_value (clock (2 * j)%nat))%Q ∧
        totalDuration r = max_duration p ∧
        success r = false ∧
        issued tr = Z.of_nat j)).
Proof.
  intros Hrun.
  destruct (retry_loop_exit p executor clock fuel O _ _ tr eq_refl Hrun)
    as (j & s & _ & Hs & _ & Hexit).
  destruct (session_at_fields p clock j s Hs) as (Ha & Ht & _ & Hi & _).
  exists j.
  assert (Hexit_i : issued (exit_trace clock s) = (Z.of_nat j + 1)%Z).
  { unfold exit_trace. rewrite issued_app, Hi. unfold issued. simpl. lia. }
  assert (Hcond_i : issued (trace s ++ [EvNow (clock (tick s))]) = Z.of_nat j).
  { rewrite issued_app, Hi. unfold issued. simpl. lia. }
  apply loop_body_Exit_inv in Hexit
    as [(Hr & -> & Hc)|(Hc & [(id & _ & Hr & ->)|[(code & message & _ & Hr & ->)|
        [(what & _ & Hr & _)|[(what & _ & Hr & _)|(code & message & _ & Hr & _)]]]])];
    try discriminate Hr; injection Hr as ->; rewrite Ht in Hc;
    (split; [exact Ha|]).
  - right. rewrite Hcond_i. auto.
  - left. rewrite Hexit_i. simpl. rewrite Ht. auto.
  - left. rewrite Hexit_i. simpl. rewrite Ht. auto.
Qed.

Lemma total_duration_reported_witness :
  ∃ r tr, simulate_capacity_reservation boundary_params stalled_clock 2
          = Some (Returned r, tr) ∧
    totalDuration r = 60%Z ∧
    (inject_Z 60 <= reading_value (stalled_clock 2))%Q.
Proof.
  eexists _, _. split; [reflexivity|].
  destruct (total_duration_reported boundary_params stub_script stalled_clock 2
              _ _ eq_refl) as (j & Ha & H);
    simpl in Ha; assert (j = 1%nat) by lia; subst j.
  destruct H as [(Hc & _)|(Hc & Hd & _)].
  - vm_compute in Hc. discriminate Hc.
  - split; assumption.
Defined.

(** * Login matching *)

Section Strings.

Lemma lower_char_idem c : lower_char (lower_char c) = lower_char c.
Proof. destruct c as [[] [] [] [] [] [] [] []]; reflexivity. Qed.

Lemma is_space_lower_char c : is_space (lower_char c) = is_space c.
Proof. destruct c as [[] [] [] [] [] [] [] []]; reflexivity. Qed.

Lemma lower_idem s : lower (lower s) = lower s.
Proof.
  induction s as [|c s IH]; [reflexivity|].
  simpl. now rewrite lower_char_idem, IH.
Qed.

Lemma lower_app a b : lower (a +:+ b) = lower a +:+ lower b.
Proof. induction a as [|c a IH]; [reflexivity|]. simpl. now rewrite IH. Qed.

Lemma lower_str_take n s : lower (str_take n s) = str_take n (lower s).
Proof.
  revert s. induction n as [|n IH]; intros [|c s]; try reflexivity.
  simpl. now rewrite IH.
Qed.

Lemma lower_lstrip s : lstrip (lower s) = lower (lstrip s).
Proof.
  induction s as [|c s IH]; [reflexivity|].
  simpl. rewrite is_space_lower_char. now destruct (is_space c).
Qed.

Lemma lower_rstrip s : rstrip (lower s) = lower (rstrip s).
Proof.
  induction s as [|c s IH]; [reflexivity|].
  simpl. rewrite IH, is_space_lower_char.
  destruct (rstrip s); simpl; [now destruct (is_space c) | reflexivity].
Qed.

Lemma lower_strip s : strip (lower s) = lower (strip s).
Proof. unfold strip. now rewrite lower_lstrip, lower_rstrip. Qed.

Lemma lower_empty s : lower s = EmptyString ↔ s = EmptyString.
Proof. destruct s; simpl; split; congruence. Qed.

(** The local [first] of the source is empty exactly when the stripped
    argument is. *)
Lemma strip_lower_empty s : strip (lower s) = EmptyString ↔ strip s = EmptyString.
Proof. rewrite lower_strip. apply lower_empty. Qed.

Lemma lower_string_of_uint d :
  lower (NilEmpty.string_of_uint d) = NilEmpty.string_of_uint d.
Proof. induction d; simpl; [reflexivity | now rewrite IHd ..]. Qed.

Lemma lower_str_of_len s : lower (str_of_len s) = str_of_len s.
Proof.
  unfold str_of_len, NilZero.string_of_uint.
  destruct (Nat.to_uint _); try reflexivity; apply lower_string_of_uint.
Qed.

Lemma item_first_ok s :
  s ≠ EmptyString →
  ∃ x, item_first s = Ok x ∧ (lower s = s → lower x = x).
Proof.
  destruct s as [|c s]; [congruence|]. intros _.
  exists (String c EmptyString). split; [reflexivity|].
  simpl. intros [= -> _]. reflexivity.
Qed.

Lemma item_last_ok s :
  s ≠ EmptyString →
  ∃ x, item_last s = Ok x ∧ (lower s = s → lower x = x).
Proof.
  induction s as [|c s IH]; [congruence|]. intros _.
  destruct s as [|c' s].
  - exists (String c EmptyString). split; [reflexivity|].
    simpl. intros [= ->]. reflexivity.
  - destruct IH as (x & Hx & Hl); [congruence|].
    exists x. split; [exact Hx|].
    intros H. apply Hl. simpl in H. simpl. injection H as _ H1 H2. congruence.
Qed.

End Strings.

Section FromKeys.

Lemma fromkeys_prefix l keys : ∃ rest, fold_left dict_add_key l keys = keys ++ rest.
Proof.
  revert keys. induction l as [|x l IH]; intros keys; simpl.
  - exists []. now rewrite app_nil_r.
  - unfold dict_add_key at 2. destruct (decide (x ∈ keys)); [apply IH|].
    destruct (IH (keys ++ [x])) as [rest ->].
    exists (x :: rest). now rewrite <- app_assoc.
Qed.

Lemma fromkeys_elem l keys x :
  x ∈ fold_left dict_add_key l keys ↔ x ∈ keys ∨ x ∈ l.
Proof.
  revert keys. induction l as [|y l IH]; intros keys; simpl.
  - rewrite elem_of_nil. tauto.
  - rewrite IH, elem_of_cons. unfold dict_add_key.
    destruct (decide (y ∈ keys)) as [Hy|Hy].
    + split; [tauto|]. intros [H|[->|H]]; tauto.
    + rewrite elem_of_app, list_elem_of_singleton. tauto.
Qed.

Lemma fromkeys_NoDup l keys : NoDup keys → NoDup (fold_left dict_add_key l keys).
Proof.
  revert keys. induction l as [|y l IH]; intros keys Hk; simpl; [exact Hk|].
  apply IH. unfold dict_add_key. destruct (decide (y ∈ keys)) as [Hy|Hy]; [exact Hk|].
  apply NoDup_app. repeat split; [exact Hk | | apply NoDup_singleton].
  intros x Hx Hx'. apply list_elem_of_singleton in Hx'. now subst.
Qed.

Lemma dict_fromkeys_elem l x : x ∈ dict_fromkeys l ↔ x ∈ l.
Proof. unfold dict_fromkeys. rewrite fromkeys_elem, elem_of_nil. tauto. Qed.

Lemma dict_fromkeys_NoDup l : NoDup (dict_fromkeys l).
Proof. apply fromkeys_NoDup, NoDup_nil_2. Qed.

(** The keys come out in the order of their first occurrences: up to the
    first occurrence of a key, the result is the result for the part of the
    list before it. *)
Lemma dict_fromkeys_first before x after :
  x ∉ before →
  ∃ rest, dict_fromkeys (before ++ x :: after) = dict_fromkeys before ++ x :: rest.
Proof.
  intros Hx. unfold dict_fromkeys. rewrite fold_left_app. simpl.
  unfold dict_add_key at 2.
  destruct (decide (x ∈ fold_left dict_add_key before [])) as [H|H].
  - apply fromkeys_elem in H. rewrite elem_of_nil in H. tauto.
  - destruct (fromkeys_prefix after (fold_left dict_add_key before [] ++ [x]))
      as [rest ->].
    exists rest. now rewrite <- app_assoc.
Qed.

End FromKeys.

Section Permutations.

Lemma candidate_logins_ok first last :
  first ≠ EmptyString → last ≠ EmptyString →
  lower first = first → lower last = last →
  ∃ candidates, candidate_logins first last = Ok candidates ∧
                Forall (λ login, lower login = login) candidates.
Proof.
  intros Hf Hl Lf Ll.
  destruct (item_first_ok first Hf) as (f0 & Hf0 & Lf0).
  destruct (item_last_ok first Hf) as (f1 & Hf1 & Lf1).
  destruct (item_first_ok last Hl) as (l0 & Hl0 & Ll0).
  destruct (item_last_ok last Hl) as (l1 & Hl1 & Ll1).
  specialize (Lf0 Lf). specialize (Lf1 Lf).
  specialize (Ll0 Ll). specialize (Ll1 Ll).
  unfold candidate_logins. rewrite Hf0, Hf1, Hl0, Hl1.
  eexists. split; [reflexivity|].
  repeat constructor;
    rewrite ?lower_app, ?lower_str_take, ?lower_str_of_len,
            ?Lf, ?Ll, ?Lf0, ?Lf1, ?Ll0, ?Ll1; reflexivity.
Qed.

Lemma candidate_logins_raise first last :
  first = EmptyString ∨ last = EmptyString →
  candidate_logins first last = Raise IndexError.
Proof.
  intros [->| ->]; [reflexivity|].
  destruct first; reflexivity.
Qed.

Lemma stripped_lower s : lower (strip (lower s)) = strip (lower s).
Proof. now rewrite <- lower_strip, lower_idem. Qed.

Lemma generate_ok first_name last_name :
  strip first_name ≠ EmptyString → strip last_name ≠ EmptyString →
  ∃ candidates,
    candidate_logins (strip (lower first_name)) (strip (lower last_name))
    = Ok candidates ∧
    generate_login_permutations first_name last_name
    = Ok (dict_fromkeys candidates) ∧
    Forall (λ login, lower login = login) candidates.
Proof.
  intros Hf Hl.
  destruct (candidate_logins_ok (strip (lower first_name)) (strip (lower last_name)))
    as (candidates & Hc & Hlow).
  - now rewrite strip_lower_empty.
  - now rewrite strip_lower_empty.
  - apply stripped_lower.
  - apply stripped_lower.
  - exists candidates. repeat split; [exact Hc | | exact Hlow].
    unfold generate_login_permutations. now rewrite Hc.
Qed.

Lemma generate_raise first_name last_name :
  strip first_name = EmptyString ∨ strip last_name = EmptyString →
  generate_login_permutations first_name last_name = Raise IndexError.
Proof.
  intros H. unfold generate_login_permutations.
  rewrite candidate_logins_raise; [reflexivity|].
  now rewrite !strip_lower_empty.
Qed.

End Permutations.

(** C10.  When both names are non-empty after stripping,
    [generate_login_permutations] returns the list of lines 11-34 with its
    duplicates removed: the result has no duplicates, has the same elements
    as the candidates, each of them unchanged by [lower], and up to the first
    occurrence of a candidate it is the result for the candidates before it.
    When the stripped first or last name is empty the call raises
    [IndexError]. *)
Theorem generate_login_permutations_spec (first_name last_name : string) :
  (strip first_name ≠ EmptyString → strip last_name ≠ EmptyString →
   ∃ candidates permutations,
     candidate_logins (strip (lower first_name)) (strip (lower last_name))
     = Ok candidates ∧
     generate_login_permutations first_name last_name = Ok permutations ∧
     NoDup permutations ∧
     (∀ login, login ∈ permutations ↔ login ∈ candidates) ∧
     (∀ login, login ∈ permutations → lower login = login) ∧
     (∀ before login after,
        candidates = before ++ login :: after → login ∉ before →
        ∃ rest, permutations = dict_fromkeys before ++ login :: rest))
  ∧ (strip first_name = EmptyString ∨ strip last_name = EmptyString →
     generate_login_permutations first_name last_name = Raise IndexError).
Proof.
  split; [|apply generate_raise].
  intros Hf Hl.
  destruct (generate_ok first_name last_name Hf Hl) as (candidates & Hc & Hg & Hlow).
  exists candidates, (dict_fromkeys candidates).
  split; [exact Hc|]. split; [exact Hg|].
  split; [apply dict_fromkeys_NoDup|].
  split; [intros login; apply dict_fromkeys_elem|].
  split.
  - intros login H. rewrite dict_fromkeys_elem in H.
    rewrite Forall_forall in Hlow. now apply Hlow.
  - intros before login after -> Hn. now apply dict_fromkeys_first.
Qed.

Lemma generate_login_permutations_spec_witness :
  ∃ permutations,
    generate_login_permutations " John " "Smith" = Ok permutations ∧
    NoDup permutations ∧
    generate_login_permutations "  " "Smith" = Raise IndexError.
Proof.
  destruct (generate_login_permutations_spec " John " "Smith") as [H _].
  destruct H as (candidates & permutations & _ & Hg & Hn & _).
  - vm_compute. discriminate.
  - vm_compute. discriminate.
  - exists permutations. split; [exact Hg|]. split; [exact Hn|].
    apply (generate_login_permutations_spec "  " "Smith").
    left. reflexivity.
Defined.

Section MatchingFacts.

Context {Data : Type}.
Implicit Types (d : gmap string Data) (names : list (string * string)).
Implicit Types (m : gmap (string * string) (list Data)) (ml : gset string).

Lemma Forall2_elem {A B} (P : A → B → Prop) (l : list A) (k : list B) x :
  Forall2 P l k → x ∈ l → ∃ y, y ∈ k ∧ P x y.
Proof.
  induction 1 as [|a b l k Hab _ IH]; intros Hx.
  - inversion Hx.
  - apply elem_of_cons in Hx as [->|Hx].
    + exists b. split; [left | exact Hab].
    + destruct (IH Hx) as (y & Hy & HP). exists y. split; [now right | exact HP].
Qed.

Lemma lookup_all_ok d (found : list string) :
  (∀ login, login ∈ found → login ∈ dom d) →
  ∃ datas, lookup_all found d = (Ok datas, d) ∧
           Forall2 (λ login data, d !! login = Some data) found datas.
Proof.
  induction found as [|login found IH]; intros Hin.
  - exists []. split; [reflexivity | constructor].
  - destruct IH as (datas & Hrun & Hall).
    { intros x Hx. apply Hin. now right. }
    assert (Hl : login ∈ dom d) by (apply Hin; left).
    apply elem_of_dom in Hl as [data Hd].
    exists (data :: datas). split; [|now constructor].
    simpl. unfold M_bind, logins_getitem. rewrite Hd, Hrun. reflexivity.
Qed.

Lemma generated_by_cons first_name last_name names login :
  generated_by ((first_name, last_name) :: names) login
  ↔ (∃ permutations,
        generate_login_permutations first_name last_name = Ok permutations ∧
        login ∈ permutations)
    ∨ generated_by names login.
Proof.
  unfold generated_by. split.
  - intros (f & l & ps & Hin & Hg & Hl).
    apply elem_of_cons in Hin as [[= -> ->]|Hin]; [left; eauto|].
    right. eauto 6.
  - intros [(ps & Hg & Hl)|(f & l & ps & Hin & Hg & Hl)].
    + exists first_name, last_name, ps. split; [left | auto].
    + exists f, l, ps. split; [now right | auto].
Qed.

(** The loop over the names, when no name is empty. *)
Lemma match_names_ok d names :
  (∀ first_name last_name, (first_name, last_name) ∈ names →
     strip first_name ≠ EmptyString ∧ strip last_name ≠ EmptyString) →
  ∀ m ml, ∃ m' ml',
    match_names (dom d) names m ml d = (Ok (m', ml'), d) ∧
    (∀ login, login ∈ ml' ↔
       login ∈ ml ∨ (login ∈ dom d ∧ generated_by names login)) ∧
    (∀ name, covers d m name ∨ name ∈ names → covers d m' name).
Proof.
  induction names as [|[first_name last_name] names IH]; intros Hne m ml.
  - exists m, ml. split; [reflexivity|]. split.
    + intros login. split; [auto|].
      intros [H|[_ (f & l & ps & Hin & _)]]; [exact H | inversion Hin].
    + intros name [H|H]; [exact H | inversion H].
  - destruct (Hne first_name last_name ltac:(left)) as [Hf Hl].
    destruct (generate_ok first_name last_name Hf Hl) as (cs & _ & Hg & _).
    assert (Hne' : ∀ f l, (f, l) ∈ names →
                          strip f ≠ EmptyString ∧ strip l ≠ EmptyString).
    { intros f l H. apply Hne. now right. }
    simpl. unfold M_bind at 1. unfold M_lift. rewrite Hg.
    set (found := filter (λ login, login ∈ dom d) (dict_fromkeys cs)).
    assert (Hfound : ∀ login, login ∈ found ↔
                       login ∈ dom d ∧ login ∈ dict_fromkeys cs).
    { intros login. unfold found. now rewrite list_elem_of_filter. }
    destruct found as [|x xs] eqn:Efound.
    + destruct (IH Hne' m ml) as (m' & ml' & Hrun & Hml & Hcov).
      exists m', ml'. split; [exact Hrun|]. split.
      * intros login. rewrite Hml, generated_by_cons. split; [tauto|].
        intros [H|[Hd [(ps & Hps & Hin)|H]]]; [tauto| |tauto].
        rewrite Hg in Hps. injection Hps as <-.
        exfalso. apply (not_elem_of_nil login). apply Hfound. auto.
      * intros name [H|H]; [apply Hcov; now left|].
        apply elem_of_cons in H as [->|H]; [|apply Hcov; now right].
        apply Hcov. left. intros ps login data Hps Hin Hd. simpl in Hps.
        rewrite Hg in Hps. injection Hps as <-.
        exfalso. apply (not_elem_of_nil login). apply Hfound.
        split; [apply elem_of_dom; eauto | exact Hin].
    + destruct (lookup_all_ok d (x :: xs)) as (datas & Hlook & Hall).
      { intros login H. now apply Hfound in H. }
      unfold M_bind at 1. rewrite Hlook.
      destruct (IH Hne' (<[(first_name, last_name) := datas]> m)
                   (ml ∪ list_to_set (x :: xs)))
        as (m' & ml' & Hrun & Hml & Hcov).
      assert (Hnew : covers d (<[(first_name, last_name) := datas]> m)
                       (first_name, last_name)).
      { intros ps login data Hps Hin Hd. simpl in Hps.
        rewrite Hg in Hps. injection Hps as <-.
        exists datas. split; [apply lookup_insert_eq|].
        assert (Hx : login ∈ x :: xs).
        { apply Hfound. split; [apply elem_of_dom; eauto | exact Hin]. }
        destruct (Forall2_elem _ _ _ _ Hall Hx) as (data' & Hin' & Hd').
        congruence. }
      exists m', ml'. split; [exact Hrun|]. split.
      * intros login.
        rewrite Hml, generated_by_cons, elem_of_union, elem_of_list_to_set, Hfound.
        split.
        -- intros [[H|[Hd Hin]]|[Hd H]]; [tauto| |tauto].
           right. split; [exact Hd|]. left. eauto.
        -- intros [H|[Hd [(ps & Hps & Hin)|H]]]; [tauto| |tauto].
           rewrite Hg in Hps. injection Hps as <-. tauto.
      * intros name [H|H].
        -- apply Hcov. left.
           destruct (decide (name = (first_name, last_name))) as [->|Hn];
             [exact Hnew|].
           intros ps login data Hps Hin Hd.
           destruct (H ps login data Hps Hin Hd) as (ds & Hds & Hdata).
           exists ds. split; [|exact Hdata].
           now rewrite lookup_insert_ne.
        -- apply elem_of_cons in H as [->|H]; [|apply Hcov; now right].
           apply Hcov. now left.
Qed.

(** The loop over the names, when some name is empty. *)
Lemma match_names_raise d names :
  (∃ first_name last_name, (first_name, last_name) ∈ names ∧
     (strip first_name = EmptyString ∨ strip last_name = EmptyString)) →
  ∀ m ml, match_names (dom d) names m ml d = (Raise IndexError, d).
Proof.
  induction names as [|[first_name last_name] names IH];
    intros (f & l & Hin & He) m ml; [inversion Hin|].
  simpl. unfold M_bind at 1. unfold M_lift.
  destruct (decide (strip first_name = EmptyString)) as [Hf|Hf];
    [now rewrite generate_raise by now left|].
  destruct (decide (strip last_name = EmptyString)) as [Hl|Hl];
    [now rewrite generate_raise by now right|].
  destruct (generate_ok first_name last_name Hf Hl) as (cs & _ & Hg & _).
  rewrite Hg.
  assert (Htail : ∃ f l, (f, l) ∈ names ∧
                         (strip f = EmptyString ∨ strip l = EmptyString)).
  { apply elem_of_cons in Hin as [[= -> ->]|Hin]; [tauto | eauto]. }
  destruct (filter _ (dict_fromkeys cs)) as [|x xs] eqn:Efound;
    [now apply IH|].
  destruct (lookup_all_ok d (x :: xs)) as (datas & Hlook & _).
  { intros login H. rewrite <- Efound in H.
    now apply list_elem_of_filter in H as [H _]. }
  unfold M_bind at 1. rewrite Hlook. now apply IH.
Qed.

End MatchingFacts.

(** C9, as the code has it.  When every name of the list is non-empty after
    stripping, [find_matching_logins] returns a result and leaves the
    dictionary it was given as it was; a login is a key of ['non_matches']
    exactly when it is an existing login that no name of the list generates,
    and it keeps its data there; and the data of every existing login that a
    name of the list generates is in the ['matches'] entry of that name.
    When some name of the list is empty after stripping, the call raises
    [IndexError] and returns nothing; the dictionary is unchanged then
    too. *)
Theorem find_matching_logins_partition {Data : Type}
    (names_list : list (string * string)) (existing_logins : gmap string Data) :
  ((∀ first_name last_name, (first_name, last_name) ∈ names_list →
      strip first_name ≠ EmptyString ∧ strip last_name ≠ EmptyString) →
   ∃ result,
     find_matching_logins names_list existing_logins
     = (Ok result, existing_logins) ∧
     (∀ login, login ∈ dom (non_matches result) ↔
        login ∈ dom existing_logins ∧ ¬ generated_by names_list login) ∧
     (∀ login data, non_matches result !! login = Some data →
        existing_logins !! login = Some data) ∧
     (∀ login data first_name last_name permutations,
        existing_logins !! login = Some data →
        (first_name, last_name) ∈ names_list →
        generate_login_permutations first_name last_name = Ok permutations →
        login ∈ permutations →
        ∃ datas, matches result !! (first_name, last_name) = Some datas ∧
                 data ∈ datas))
  ∧ ((∃ first_name last_name, (first_name, last_name) ∈ names_list ∧
        (strip first_name = EmptyString ∨ strip last_name = EmptyString)) →
     find_matching_logins names_list existing_logins
     = (Raise IndexError, existing_logins)).
Proof.
  split.
  - intros Hne.
    destruct (match_names_ok existing_logins names_list Hne ∅ ∅)
      as (m' & ml' & Hrun & Hml & Hcov).
    eexists. split.
    { unfold find_matching_logins, M_bind, logins_keys, logins_items, M_ret.
      rewrite Hrun. reflexivity. }
    cbn [matches non_matches]. rewrite <- map_filter_alt.
    assert (Hlk : ∀ login data,
      filter (λ item : string * Data, item.1 ∉ ml') existing_logins !! login
        = Some data
      ↔ existing_logins !! login = Some data ∧ login ∉ ml').
    { intros login data. now rewrite map_lookup_filter_Some. }
    split; [|split].
    + intros login. rewrite !elem_of_dom. unfold is_Some. split.
      * intros (data & Hd). apply Hlk in Hd as [Hd Hn]. split; [eauto|].
        intros Hg. apply Hn, Hml. right.
        split; [apply elem_of_dom; eauto | exact Hg].
      * intros [(data & Hd) Hn]. exists data. apply Hlk. split; [exact Hd|].
        intros H. apply Hml in H as [H|[_ H]]; [|contradiction].
        now apply not_elem_of_empty in H.
    + intros login data H. now apply Hlk in H.
    + intros login data first_name last_name ps Hd Hin Hg Hl.
      apply (Hcov (first_name, last_name) (or_intror Hin) ps login data);
        assumption.
  - intros He.
    unfold find_matching_logins, M_bind, logins_keys.
    now rewrite (match_names_raise existing_logins names_list He).
Qed.

Lemma find_matching_logins_partition_witness :
  ∃ result,
    find_matching_logins [("John", "Smith"); ("Ann", "Lee")]%string
      ({["jsmith"%string := 1%nat]} : gmap string nat)
    = (Ok result, {["jsmith"%string := 1%nat]}).
Proof.
  destruct (find_matching_logins_partition
              [("John", "Smith"); ("Ann", "Lee")]%string
              ({["jsmith"%string := 1%nat]} : gmap string nat)) as [H _].
  destruct H as (result & Hr & _).
  - intros f l Hin.
    apply elem_of_cons in Hin as [[= -> ->]|Hin];
      [split; vm_compute; discriminate|].
    apply elem_of_cons in Hin as [[= -> ->]|Hin];
      [split; vm_compute; discriminate|].
    inversion Hin.
  - exists result. exact Hr.
Defined.

(** C9, as the claim has it, fails.  A names list with an empty first name
    makes the call raise [IndexError]: nothing is returned, although the
    login [jsmith] is generated by the first name of the list. *)
Lemma empty_name_counterexample :
  find_matching_logins [("John", "Smith"); (EmptyString, "Doe")]%string
    ({["jsmith"%string := 1%nat]} : gmap string nat)
  = (Raise IndexError, {["jsmith"%string := 1%nat]}).
Proof.
  unfold find_matching_logins, M_bind, logins_keys.
  rewrite match_names_raise; [reflexivity|].
  exists EmptyString, "Doe"%string. split; [right; left | left; reflexivity].
Qed.

(** * Further properties of the login matcher *)

Section StripFacts.

Lemma lstrip_head s :
  match lstrip s with
  | EmptyString => True
  | String c _ => is_space c = false
  end.
Proof.
  induction s as [|c s IH]; [exact I|].
  simpl. destruct (is_space c) eqn:E; [exact IH | exact E].
Qed.

Lemma rstrip_head c s :
  is_space c = false → ∃ r, rstrip (String c s) = String c r.
Proof.
  intros Hc. simpl. destruct (rstrip s); [|eauto].
  rewrite Hc. eauto.
Qed.

Lemma rstrip_idem s : rstrip (rstrip s) = rstrip s.
Proof.
  induction s as [|c s IH]; [reflexivity|].
  simpl. destruct (rstrip s) as [|c' r] eqn:E.
  - destruct (is_space c) eqn:Hc; [reflexivity|]. simpl. now rewrite Hc.
  - change (rstrip (String c (String c' r)))
      with (match rstrip (String c' r) with
            | EmptyString => if is_space c then EmptyString else String c EmptyString
            | r' => String c r'
            end).
    now rewrite IH.
Qed.

Lemma strip_idem s : strip (strip s) = strip s.
Proof.
  unfold strip.
  assert (H : lstrip (rstrip (lstrip s)) = rstrip (lstrip s)).
  { pose proof (lstrip_head s) as Hh.
    destruct (lstrip s) as [|c t]; [reflexivity|].
    destruct (rstrip_head c t Hh) as [r ->]. simpl. now rewrite Hh. }
  now rewrite H, rstrip_idem.
Qed.

Lemma lower_strip_norm s : strip (lower (strip s)) = strip (lower s).
Proof. now rewrite <- lower_strip, strip_idem. Qed.

End StripFacts.

Section PermutationFacts.

Lemma fromkeys_length l keys :
  (length (fold_left dict_add_key l keys) ≤ length keys + length l)%nat.
Proof.
  revert keys. induction l as [|x l IH]; intros keys; simpl; [lia|].
  specialize (IH (dict_add_key keys x)). unfold dict_add_key in *.
  destruct (decide (x ∈ keys)); [lia|]. rewrite length_app in IH. simpl in IH. lia.
Qed.

Lemma candidate_logins_shape first last :
  first ≠ EmptyString → last ≠ EmptyString →
  ∃ rest, candidate_logins first last = Ok ((first +:+ last) :: rest) ∧
          length rest = 21%nat ∧
          Forall (λ login, login ≠ EmptyString) ((first +:+ last) :: rest).
Proof.
  intros Hf Hl.
  destruct (item_last_ok first Hf) as (f1 & Hf1 & _).
  destruct (item_last_ok last Hl) as (l1 & Hl1 & _).
  destruct first as [|a s1]; [congruence|].
  destruct last as [|b s2]; [congruence|].
  unfold candidate_logins. rewrite Hf1, Hl1.
  eexists. split; [reflexivity|]. split; [reflexivity|].
  repeat constructor; discriminate.
Qed.

End PermutationFacts.

(** X8.  [generate_login_permutations] looks at its arguments only through
    [lower] and [strip]: arguments that differ in letter case or in leading
    and trailing whitespace give the same result, raising included. *)
Theorem generate_login_permutations_normalises (first_name last_name : string) :
  generate_login_permutations (lower first_name) (lower last_name)
  = generate_login_permutations first_name last_name
  ∧ generate_login_permutations (strip first_name) (strip last_name)
    = generate_login_permutations first_name last_name.
Proof.
  unfold generate_login_permutations. split.
  - now rewrite !lower_idem.
  - now rewrite !lower_strip_norm.
Qed.

(** X9.  For names that are non-empty after stripping, the result starts
    with the concatenation of the normalised first and last name, has at
    most 22 entries, and has no empty entry. *)
Theorem generate_login_permutations_shape (first_name last_name : string) :
  strip first_name ≠ EmptyString → strip last_name ≠ EmptyString →
  ∃ rest,
    generate_login_permutations first_name last_name
    = Ok ((strip (lower first_name) +:+ strip (lower last_name)) :: rest) ∧
    (length rest ≤ 21)%nat ∧
    Forall (λ login, login ≠ EmptyString)
      ((strip (lower first_name) +:+ strip (lower last_name)) :: rest).
Proof.
  intros Hf Hl.
  destruct (candidate_logins_shape (strip (lower first_name))
              (strip (lower last_name)))
    as (cs & Hc & Hlen & Hne).
  - now rewrite strip_lower_empty.
  - now rewrite strip_lower_empty.
  - unfold generate_login_permutations. rewrite Hc.
    set (x := strip (lower first_name) +:+ strip (lower last_name)) in *.
    destruct (fromkeys_prefix cs [x]) as [rest Hrest].
    assert (Hd : dict_fromkeys (x :: cs) = x :: rest).
    { unfold dict_fromkeys. simpl. unfold dict_add_key at 2.
      destruct (decide (x ∈ [])) as [H|_]; [inversion H | exact Hrest]. }
    exists rest. simpl. rewrite Hd. split; [reflexivity|]. split.
    + pose proof (fromkeys_length cs [x]) as H. rewrite Hrest in H.
      simpl in H. lia.
    + rewrite Forall_forall in Hne |- *. intros login Hin. apply Hne.
      rewrite <- Hd in Hin. now rewrite dict_fromkeys_elem in Hin.
Qed.

Lemma generate_login_permutations_shape_witness :
  ∃ rest, generate_login_permutations " John " "SMITH"
          = Ok ("johnsmith"%string :: rest) ∧ (length rest ≤ 21)%nat.
Proof.
  destruct (generate_login_permutations_shape " John " "SMITH")
    as (rest & Hg & Hlen & _).
  - vm_compute. discriminate.
  - vm_compute. discriminate.
  - exists rest. split; [exact Hg | exact Hlen].
Defined.

Section MatchingEntries.

Context {Data : Type}.
Implicit Types (d : gmap string Data) (names : list (string * string)).
Implicit Types (m : gmap (string * string) (list Data)) (ml : gset string).

Lemma lookup_all_omap d (found : list string) datas :
  Forall2 (λ login data, d !! login = Some data) found datas →
  omap (λ login, d !! login) found = datas.
Proof.
  induction 1 as [|login data found datas H _ IH]; [reflexivity|].
  simpl. rewrite H. simpl. f_equal. exact IH.
Qed.

Lemma omap_lookup_Forall2 d (found : list string) :
  (∀ login, login ∈ found → login ∈ dom d) →
  Forall2 (λ login data, d !! login = Some data) found
          (omap (λ login, d !! login) found).
Proof.
  induction found as [|login found IH]; intros Hin; [constructor|].
  assert (Hl : login ∈ dom d) by (apply Hin; left).
  apply elem_of_dom in Hl as [data Hd].
  simpl. rewrite Hd. simpl. constructor; [exact Hd|].
  apply IH. intros x Hx. apply Hin. now right.
Qed.

(** The entries the loop leaves in [matches]. *)
Lemma match_names_entries d names :
  (∀ first_name last_name, (first_name, last_name) ∈ names →
     strip first_name ≠ EmptyString ∧ strip last_name ≠ EmptyString) →
  ∀ m ml, ∃ m' ml',
    match_names (dom d) names m ml d = (Ok (m', ml'), d) ∧
    (∀ name, m' !! name =
       if decide (name ∈ names)
       then match expected_entry d name with
            | Some datas => Some datas
            | None => m !! name
            end
       else m !! name) ∧
    (∀ login, login ∈ ml' ↔
       login ∈ ml ∨ (login ∈ dom d ∧ generated_by names login)).
Proof.
  intros Hne m ml.
  destruct (match_names_ok d names Hne m ml) as (m' & ml' & Hrun & Hml & _).
  exists m', ml'. split; [exact Hrun|]. split; [|exact Hml].
  clear Hml. revert m ml m' ml' Hrun.
  induction names as [|[first_name last_name] names IH];
    intros m ml m' ml' Hrun name.
  - injection Hrun as <- _. destruct (decide (name ∈ [])) as [H|_];
      [inversion H | reflexivity].
  - destruct (Hne first_name last_name ltac:(left)) as [Hf Hl].
    destruct (generate_ok first_name last_name Hf Hl) as (cs & _ & Hg & _).
    assert (Hne' : ∀ f l, (f, l) ∈ names →
                          strip f ≠ EmptyString ∧ strip l ≠ EmptyString).
    { intros f l H. apply Hne. now right. }
    assert (Hhead : expected_entry d (first_name, last_name)
                    = match filter (λ login, login ∈ dom d) (dict_fromkeys cs) with
                      | [] => None
                      | found => Some (omap (λ login, d !! login) found)
                      end).
    { unfold expected_entry. simpl. now rewrite Hg. }
    simpl in Hrun. unfold M_bind at 1 in Hrun. unfold M_lift in Hrun.
    rewrite Hg in Hrun.
    destruct (filter (λ login, login ∈ dom d) (dict_fromkeys cs))
      as [|x xs] eqn:Efound.
    + specialize (IH Hne' m ml m' ml' Hrun name). rewrite IH.
      destruct (decide (name ∈ names)) as [Hin|Hin].
      * rewrite decide_True by now right. reflexivity.
      * destruct (decide (name = (first_name, last_name))) as [->|Hn].
        -- rewrite decide_True by left. now rewrite Hhead.
        -- rewrite decide_False; [reflexivity|].
           intros H. apply elem_of_cons in H as [H|H]; contradiction.
    + destruct (lookup_all_ok d (x :: xs)) as (datas & Hlook & Hall).
      { intros login H. rewrite <- Efound in H.
        now apply list_elem_of_filter in H as [H _]. }
      unfold M_bind at 1 in Hrun. rewrite Hlook in Hrun.
      apply lookup_all_omap in Hall.
      specialize (IH Hne' _ _ m' ml' Hrun name). rewrite IH.
      destruct (decide (name = (first_name, last_name))) as [->|Hn].
      * rewrite (decide_True (P := _ ∈ _ :: _)) by left.
        rewrite Hhead, Hall, lookup_insert_eq.
        now destruct (decide (_ ∈ names)).
      * rewrite lookup_insert_ne by congruence.
        destruct (decide (name ∈ names)) as [Hin|Hin].
        -- rewrite decide_True by now right. reflexivity.
        -- rewrite decide_False; [reflexivity|].
           intros H. apply elem_of_cons in H as [H|H]; contradiction.
Qed.

(** The whole call, when no name is empty. *)
Lemma find_matching_logins_run d names :
  (∀ first_name last_name, (first_name, last_name) ∈ names →
     strip first_name ≠ EmptyString ∧ strip last_name ≠ EmptyString) →
  ∃ m' ml',
    find_matching_logins names d
    = (Ok {| matches := m';
             non_matches := filter (λ item : string * Data, item.1 ∉ ml') d |}, d) ∧
    (∀ name, m' !! name =
       if decide (name ∈ names) then expected_entry d name else None) ∧
    (∀ login, login ∈ ml' ↔ login ∈ dom d ∧ generated_by names login).
Proof.
  intros Hne.
  destruct (match_names_entries d names Hne ∅ ∅) as (m' & ml' & Hrun & Hm & Hml).
  exists m', ml'. split; [|split].
  - unfold find_matching_logins, M_bind, logins_keys, logins_items, M_ret.
    rewrite Hrun. now rewrite <- map_filter_alt.
  - intros name. rewrite Hm, lookup_empty.
    destruct (decide (name ∈ names)); [|reflexivity].
    now destruct (expected_entry d name).
  - intros login. rewrite Hml. split; [|auto].
    intros [H|H]; [now apply not_elem_of_empty in H | exact H].
Qed.

(** A call that returns had no empty name in its list. *)
Lemma find_matching_logins_Ok_names d d' names (r : @MatchResult Data) :
  find_matching_logins names d = (Ok r, d') →
  ∀ first_name last_name, (first_name, last_name) ∈ names →
    strip first_name ≠ EmptyString ∧ strip last_name ≠ EmptyString.
Proof.
  intros Hrun f l Hin.
  destruct (decide (strip f = EmptyString)) as [Hf|Hf];
    [|destruct (decide (strip l = EmptyString)) as [Hl|Hl]; [|auto]].
  - assert (He : ∃ f l, (f, l) ∈ names ∧
                        (strip f = EmptyString ∨ strip l = EmptyString)) by eauto.
    unfold find_matching_logins, M_bind, logins_keys in Hrun.
    rewrite (match_names_raise d names He) in Hrun. discriminate.
  - assert (He : ∃ f l, (f, l) ∈ names ∧
                        (strip f = EmptyString ∨ strip l = EmptyString)) by eauto.
    unfold find_matching_logins, M_bind, logins_keys in Hrun.
    rewrite (match_names_raise d names He) in Hrun. discriminate.
Qed.

Lemma generated_lowercase names login :
  generated_by names login → lower login = login.
Proof.
  intros (f & l & ps & _ & Hg & Hin).
  destruct (decide (strip f = EmptyString)) as [Hf|Hf];
    [rewrite generate_raise in Hg by (now left); discriminate|].
  destruct (decide (strip l = EmptyString)) as [Hl|Hl];
    [rewrite generate_raise in Hg by (now right); discriminate|].
  destruct (generate_ok f l Hf Hl) as (cs & _ & Hg' & Hlow).
  rewrite Hg' in Hg. injection Hg as <-.
  rewrite dict_fromkeys_elem in Hin.
  rewrite Forall_forall in Hlow. now apply Hlow.
Qed.

End MatchingEntries.

Lemma names_empty_dec (names : list (string * string)) :
  (∀ first_name last_name, (first_name, last_name) ∈ names →
     strip first_name ≠ EmptyString ∧ strip last_name ≠ EmptyString)
  ∨ (∃ first_name last_name, (first_name, last_name) ∈ names ∧
       (strip first_name = EmptyString ∨ strip last_name = EmptyString)).
Proof.
  induction names as [|[f l] names [IH|(f' & l' & Hin & He)]].
  - left. intros f l H. inversion H.
  - destruct (decide (strip f = EmptyString)) as [Hf|Hf];
      [right; exists f, l; split; [left | now left]|].
    destruct (decide (strip l = EmptyString)) as [Hl|Hl];
      [right; exists f, l; split; [left | now right]|].
    left. intros f' l' H.
    apply elem_of_cons in H as [[= -> ->]|H]; [auto | now apply IH].
  - right. exists f', l'. split; [now right | exact He].
Qed.

(** X10.  Matching is case-sensitive on the side of the logins: whenever the
    call returns, an existing login that contains a capital letter (one that
    [lower] changes) is among the ['non_matches'], with its data, whatever the
    names are. *)
Theorem uppercase_login_never_matches {Data : Type}
    (names_list : list (string * string))
    (existing_logins existing_logins' : gmap string Data)
    (result : @MatchResult Data) (login : string) (data : Data) :
  find_matching_logins names_list existing_logins = (Ok result, existing_logins') →
  existing_logins !! login = Some data →
  lower login ≠ login →
  non_matches result !! login = Some data.
Proof.
  intros Hrun Hd Hup.
  pose proof (find_matching_logins_Ok_names _ _ _ _ Hrun) as Hne.
  destruct (find_matching_logins_run existing_logins names_list Hne)
    as (m' & ml' & Hfind & _ & Hml).
  rewrite Hfind in Hrun. injection Hrun as <- _. simpl.
  apply map_lookup_filter_Some. split; [exact Hd|].
  simpl. intros Hin. apply Hml in Hin as [_ Hg].
  apply generated_lowercase in Hg. contradiction.
Qed.

Lemma uppercase_login_never_matches_witness :
  ∃ result,
    find_matching_logins [("John", "Smith")]%string
      ({["JSmith"%string := 1%nat]} : gmap string nat)
    = (Ok result, {["JSmith"%string := 1%nat]}) ∧
    non_matches result !! "JSmith"%string = Some 1%nat.
Proof.
  destruct (find_matching_logins_run
              ({["JSmith"%string := 1%nat]} : gmap string nat)
              [("John", "Smith")]%string) as (m' & ml' & Hfind & _).
  - intros f l Hin. apply elem_of_cons in Hin as [[= -> ->]|Hin];
      [split; vm_compute; discriminate | inversion Hin].
  - eexists. split; [exact Hfind|].
    apply (uppercase_login_never_matches _ _ _ _ "JSmith"%string 1%nat Hfind).
    + apply lookup_singleton_eq.
    + vm_compute. discriminate.
Defined.

(** X11.  Whenever the call returns, ['matches'] has an entry for a name
    exactly when the name is in the list and at least one of its permutations
    is an existing login; the entry is then the list of the data of those
    logins, in the order of the permutations. *)
Theorem matches_entries {Data : Type} (names_list : list (string * string))
    (existing_logins existing_logins' : gmap string Data)
    (result : @MatchResult Data) (first_name last_name : string)
    (datas : list Data) :
  find_matching_logins names_list existing_logins = (Ok result, existing_logins') →
  (matches result !! (first_name, last_name) = Some datas
   ↔ (first_name, last_name) ∈ names_list ∧
     ∃ permutations login found,
       generate_login_permutations first_name last_name = Ok permutations ∧
       filter (λ login, login ∈ dom existing_logins) permutations
       = login :: found ∧
       Forall2 (λ login data, existing_logins !! login = Some data)
               (login :: found) datas).
Proof.
  intros Hrun.
  pose proof (find_matching_logins_Ok_names _ _ _ _ Hrun) as Hne.
  destruct (find_matching_logins_run existing_logins names_list Hne)
    as (m' & ml' & Hfind & Hm & _).
  rewrite Hfind in Hrun. injection Hrun as <- _. simpl.
  rewrite Hm. unfold expected_entry. simpl. split.
  - destruct (decide (_ ∈ names_list)) as [Hin|]; [|discriminate].
    destruct (generate_login_permutations first_name last_name)
      as [ps|]; [|discriminate].
    destruct (filter _ ps) as [|x xs] eqn:Ef; [discriminate|].
    intros [= <-]. split; [exact Hin|]. exists ps, x, xs.
    split; [reflexivity|]. split; [exact Ef|].
    apply (omap_lookup_Forall2 existing_logins (x :: xs)). intros y Hy. rewrite <- Ef in Hy.
    now apply list_elem_of_filter in Hy as [Hy _].
  - intros (Hin & ps & x & xs & Hg & Ef & Hall).
    rewrite decide_True by exact Hin. rewrite Hg, Ef.
    rewrite <- (lookup_all_omap _ _ _ Hall). reflexivity.
Qed.

Lemma matches_entries_witness :
  ∃ result,
    find_matching_logins [("John", "Smith")]%string
      ({["jsmith"%string := 1%nat]} : gmap string nat)
    = (Ok result, {["jsmith"%string := 1%nat]}) ∧
    ∀ datas, matches result !! ("Ann", "Lee")%string ≠ Some datas.
Proof.
  destruct (find_matching_logins_run
              ({["jsmith"%string := 1%nat]} : gmap string nat)
              [("John", "Smith")]%string) as (m' & ml' & Hfind & _).
  - intros f l Hin. apply elem_of_cons in Hin as [[= -> ->]|Hin];
      [split; vm_compute; discriminate | inversion Hin].
  - eexists. split; [exact Hfind|].
    intros datas H.
    apply (matches_entries _ _ _ _ "Ann"%string "Lee"%string datas Hfind) in H
      as [Hin _].
    apply elem_of_cons in Hin as [[=]|Hin]; inversion Hin.
Defined.

(** X12.  The result depends on the names only as a set: two lists with the
    same names, in any order and with any repetitions, give the same
    ['matches'] and ['non_matches'] (as dictionaries compared with [==]), or
    both raise. *)
Theorem names_order_irrelevant {Data : Type}
    (names_list names_list' : list (string * string))
    (existing_logins : gmap string Data) :
  (∀ name, name ∈ names_list ↔ name ∈ names_list') →
  find_matching_logins names_list existing_logins
  = find_matching_logins names_list' existing_logins.
Proof.
  intros Hsame.
  destruct (names_empty_dec names_list) as [Hne|(f & l & Hin & He)].
  - assert (Hne' : ∀ f l, (f, l) ∈ names_list' →
                          strip f ≠ EmptyString ∧ strip l ≠ EmptyString).
    { intros f l H. apply Hne. now apply Hsame. }
    destruct (find_matching_logins_run existing_logins names_list Hne)
      as (m1 & ml1 & -> & Hm1 & Hml1).
    destruct (find_matching_logins_run existing_logins names_list' Hne')
      as (m2 & ml2 & -> & Hm2 & Hml2).
    assert (Hm : m1 = m2).
    { apply map_eq. intros name. rewrite Hm1, Hm2.
      destruct (decide (name ∈ names_list)) as [H|H],
               (decide (name ∈ names_list')) as [H'|H'];
        try reflexivity; exfalso; apply Hsame in H || apply Hsame in H';
        contradiction. }
    assert (Hml : ml1 = ml2).
    { apply set_eq. intros login. rewrite Hml1, Hml2.
      unfold generated_by. split.
      - intros [Hd (f & l & ps & Hin & H)]. split; [exact Hd|].
        exists f, l, ps. split; [now apply Hsame | exact H].
      - intros [Hd (f & l & ps & Hin & H)]. split; [exact Hd|].
        exists f, l, ps. split; [now apply Hsame | exact H]. }
    now rewrite Hm, Hml.
  - unfold find_matching_logins, M_bind, logins_keys.
    rewrite (match_names_raise existing_logins names_list) by eauto.
    rewrite (match_names_raise existing_logins names_list'); [reflexivity|].
    exists f, l. split; [now apply Hsame | exact He].
Qed.

Lemma names_order_irrelevant_witness :
  find_matching_logins [("John", "Smith"); ("Ann", "Lee")]%string
    ({["jsmith"%string := 1%nat]} : gmap string nat)
  = find_matching_logins
      [("Ann", "Lee"); ("John", "Smith"); ("Ann", "Lee")]%string
      ({["jsmith"%string := 1%nat]} : gmap string nat).
Proof.
  apply names_order_irrelevant.
  intros name. rewrite !elem_of_cons, !elem_of_nil. tauto.
Defined.

(** X13.  Empty inputs.  With no names, nothing matches: ['matches'] is
    empty and ['non_matches'] is the whole dictionary.  With no logins, and
    names that are non-empty after stripping, both are empty. *)
Theorem find_matching_logins_empty {Data : Type}
    (names_list : list (string * string)) (existing_logins : gmap string Data) :
  find_matching_logins [] existing_logins
  = (Ok {| matches := ∅; non_matches := existing_logins |}, existing_logins)
  ∧ ((∀ first_name last_name, (first_name, last_name) ∈ names_list →
        strip first_name ≠ EmptyString ∧ strip last_name ≠ EmptyString) →
     find_matching_logins names_list (∅ : gmap string Data)
     = (Ok {| matches := ∅; non_matches := ∅ |}, ∅)).
Proof.
  split.
  - unfold find_matching_logins, M_bind, logins_keys, logins_items, M_ret.
    simpl. rewrite <- map_filter_alt.
    rewrite map_filter_id; [reflexivity|].
    intros login data _. simpl. apply not_elem_of_empty.
  - intros Hne.
    destruct (find_matching_logins_run (∅ : gmap string Data) names_list Hne)
      as (m' & ml' & -> & Hm & _).
    assert (Hempty : m' = ∅).
    { apply map_eq. intros name. rewrite Hm, lookup_empty.
      destruct (decide (name ∈ names_list)); [|reflexivity].
      unfold expected_entry.
      destruct (generate_login_permutations name.1 name.2) as [ps|];
        [|reflexivity].
      destruct (filter (λ login, login ∈ dom (∅ : gmap string Data)) ps)
        as [|x xs] eqn:Ef; [reflexivity|].
      assert (Hx : x ∈ filter (λ login, login ∈ dom (∅ : gmap string Data)) ps)
        by (rewrite Ef; left).
      apply list_elem_of_filter in Hx as [Hx _].
      rewrite dom_empty_L in Hx. now apply not_elem_of_empty in Hx. }
    now rewrite Hempty, map_filter_empty.
Qed.

Lemma find_matching_logins_empty_witness :
  find_matching_logins [("John", "Smith")]%string (∅ : gmap string nat)
  = (Ok {| matches := ∅; non_matches := ∅ |}, ∅).
Proof.
  apply (find_matching_logins_empty [("John", "Smith")]%string
           (∅ : gmap string nat)).
  intros f l Hin. apply elem_of_cons in Hin as [[= -> ->]|Hin];
    [split; vm_compute; discriminate | inversion Hin].
Defined.

(** ** The CSV readers *)

Section ReadNames.

Lemma read_names_fold (rows : list (list string)) (names : list (string * string)) :
  fold_left
    (λ names row,
       match row with
       | first_name :: last_name :: _ =>
           names ++ [(strip first_name, strip last_name)]
       | _ => names
       end) rows names
  = names ++ fold_left
      (λ names row,
         match row with
         | first_name :: last_name :: _ =>
             names ++ [(strip first_name, strip last_name)]
         | _ => names
         end) rows [].
Proof.
  revert names. induction rows as [|row rows IH]; intros names; simpl.
  - now rewrite app_nil_r.
  - destruct row as [|c0 [|c1 cs]]; try apply IH.
    rewrite IH, (IH [_]). now rewrite <- app_assoc.
Qed.

Lemma read_names_cons header row rows :
  read_names_from_csv (header :: row :: rows)
  = match row with
    | first_name :: last_name :: _ => [(strip first_name, strip last_name)]
    | _ => []
    end ++ read_names_from_csv (header :: rows).
Proof.
  unfold read_names_from_csv. simpl.
  destruct row as [|c0 [|c1 cs]]; try reflexivity.
  now rewrite read_names_fold.
Qed.

Lemma read_names_mem_cons header rows first_name last_name :
  (first_name, last_name) ∈ read_names_from_csv (header :: rows)
  ↔ ∃ c0 c1 cells, (c0 :: c1 :: cells) ∈ rows ∧
                   first_name = strip c0 ∧ last_name = strip c1.
Proof.
  revert first_name last_name.
  induction rows as [|row rows IH]; intros f l.
  - split; [intros H; inversion H|].
    intros (c0 & c1 & cs & H & _). inversion H.
  - rewrite read_names_cons, elem_of_app, IH. split.
    + intros [H|(c0 & c1 & cs & H & Hf & Hl)].
      * destruct row as [|c0 [|c1 cs]]; try (inversion H; fail).
        apply list_elem_of_singleton in H. injection H as -> ->.
        exists c0, c1, cs. split; [left | auto].
      * exists c0, c1, cs. split; [now right | auto].
    + intros (c0 & c1 & cs & H & -> & ->).
      apply elem_of_cons in H as [<-|H].
      * left. left.
      * right. eauto 6.
Qed.

Lemma read_names_mem rows first_name last_name :
  (first_name, last_name) ∈ read_names_from_csv rows
  ↔ ∃ c0 c1 cells, (c0 :: c1 :: cells) ∈ tail rows ∧
                   first_name = strip c0 ∧ last_name = strip c1.
Proof.
  destruct rows as [|header rows]; [|apply read_names_mem_cons].
  split; [intros H; inversion H|].
  intros (c0 & c1 & cs & H & _). inversion H.
Qed.

End ReadNames.

(** X14.  [read_names_from_csv] never looks at the first row; of the later
    rows it keeps, in order, those with at least two cells, as the pair of
    their first two cells; every name it returns is stripped.  An empty file
    and a file with a header only give the empty list. *)
Theorem read_names_from_csv_spec (header : list string)
    (rows rows' : list (list string)) :
  read_names_from_csv [] = []
  ∧ read_names_from_csv [header] = []
  ∧ read_names_from_csv (header :: rows ++ rows')
    = read_names_from_csv (header :: rows) ++ read_names_from_csv (header :: rows')
  ∧ (∀ first_name last_name,
       (first_name, last_name) ∈ read_names_from_csv (header :: rows)
       ↔ ∃ c0 c1 cells, (c0 :: c1 :: cells) ∈ rows ∧
                        first_name = strip c0 ∧ last_name = strip c1)
  ∧ (∀ first_name last_name,
       (first_name, last_name) ∈ read_names_from_csv (header :: rows) →
       strip first_name = first_name ∧ strip last_name = last_name)
  ∧ length (read_names_from_csv (header :: rows))
    = length (filter (λ row : list string, (2 ≤ length row)%nat) rows).
Proof.
  pose proof (read_names_mem_cons header) as Hmem.
  split; [reflexivity|]. split; [reflexivity|]. split; [|split; [|split]].
  - induction rows as [|row rows IH]; [reflexivity|].
    simpl. rewrite !read_names_cons, IH. now rewrite app_assoc.
  - apply Hmem.
  - intros f l H. apply Hmem in H as (c0 & c1 & cs & _ & -> & ->).
    now rewrite !strip_idem.
  - induction rows as [|row rows IH]; [reflexivity|].
    rewrite read_names_cons, length_app, IH, filter_cons.
    destruct row as [|c0 [|c1 cs]]; case_decide; simpl in *;
      try reflexivity; lia.
Qed.

Lemma read_names_from_csv_spec_witness :
  ("John", "Smith")%string
    ∈ read_names_from_csv [["First"; "Last"]; [" John "; "Smith "; "x"]; ["only"]]%string
  ∧ strip "John" = "John"%string.
Proof.
  destruct (read_names_from_csv_spec ["First"; "Last"]%string
              [[" John "; "Smith "; "x"]; ["only"]]%string [])
    as (_ & _ & _ & Hmem & Hstrip & _).
  assert (H : ("John", "Smith")%string
    ∈ read_names_from_csv [["First"; "Last"]; [" John "; "Smith "; "x"]; ["only"]]%string).
  { apply Hmem. exists " John "%string, "Smith "%string, ["x"%string].
    split; [left | split; reflexivity]. }
  split; [exact H | exact (proj1 (Hstrip _ _ H))].
Defined.

Section ReadLogins.

Implicit Types (row : Row) (logins : gmap string Row).

Lemma truthy_false s : truthy s = false ↔ s = EmptyString.
Proof. destruct s; simpl; split; congruence. Qed.

Lemma row_login_stripped f row login :
  row_login f row = Some login →
  login ≠ EmptyString ∧ strip login = login ∧
  ∃ cell, fields row !! f = Some (Some cell) ∧ strip cell = login.
Proof.
  unfold row_login. destruct (fields row !! f) as [[cell|]|]; try discriminate.
  destruct (truthy (strip cell)) eqn:Ht; [|discriminate].
  intros [= <-]. split; [|split; [apply strip_idem | eauto]].
  intros H. rewrite H in Ht. discriminate.
Qed.

(** One row of the loop of lines 105-111. *)
Lemma read_logins_rows_step f fs row rows logins v :
  fields row !! f = Some v →
  read_logins_rows (f :: fs) (row :: rows) logins
  = read_logins_rows (f :: fs) rows
      (match row_login f row with
       | Some login => <[login := row]> logins
       | None => logins
       end).
Proof.
  intros Hv. simpl. unfold row_getitem, row_login. rewrite Hv. simpl.
  destruct v as [cell|]; [|reflexivity].
  destruct (truthy cell) eqn:Hc; [now destruct (truthy (strip cell))|].
  apply truthy_false in Hc. subst cell. reflexivity.
Qed.

Lemma read_logins_rows_missing f fs row rows logins :
  fields row !! f = None →
  read_logins_rows (f :: fs) (row :: rows) logins = Raise KeyError.
Proof. intros Hv. simpl. unfold row_getitem. now rewrite Hv. Qed.

Lemma read_logins_rows_app fieldnames rows rows' logins :
  read_logins_rows fieldnames (rows ++ rows') logins
  = match read_logins_rows fieldnames rows logins with
    | Ok logins' => read_logins_rows fieldnames rows' logins'
    | Raise e => Raise e
    end.
Proof.
  revert logins. induction rows as [|row rows IH]; intros logins; [reflexivity|].
  destruct fieldnames as [|f fs]; [reflexivity|].
  destruct (fields row !! f) as [v|] eqn:Hv.
  - rewrite <- app_comm_cons, !(read_logins_rows_step f fs row _ logins v Hv).
    apply IH.
  - rewrite <- app_comm_cons, !read_logins_rows_missing by exact Hv.
    reflexivity.
Qed.

Lemma read_logins_rows_Ok f fs rows logins :
  Forall (λ row, is_Some (fields row !! f)) rows →
  ∃ result, read_logins_rows (f :: fs) rows logins = Ok result.
Proof.
  intros H. revert logins. induction H as [|row rows [v Hv] _ IH]; intros logins.
  - now exists logins.
  - rewrite (read_logins_rows_step f fs row rows logins v Hv). apply IH.
Qed.

Lemma read_logins_rows_values f fs rows logins result login row :
  read_logins_rows (f :: fs) rows logins = Ok result →
  result !! login = Some row →
  logins !! login = Some row ∨ (row ∈ rows ∧ row_login f row = Some login).
Proof.
  revert logins. induction rows as [|row0 rows IH]; intros logins Hrun Hl.
  - injection Hrun as <-. now left.
  - destruct (fields row0 !! f) as [v|] eqn:Hv;
      [|rewrite read_logins_rows_missing in Hrun by exact Hv; discriminate].
    rewrite (read_logins_rows_step f fs row0 rows logins v Hv) in Hrun.
    destruct (IH _ Hrun Hl) as [H|[Hin Hr]]; [|right; split; [now right|exact Hr]].
    destruct (row_login f row0) as [login0|] eqn:E; [|now left].
    destruct (decide (login0 = login)) as [->|Hn].
    + rewrite lookup_insert_eq in H. injection H as <-.
      right. split; [left | exact E].
    + rewrite lookup_insert_ne in H by exact Hn. now left.
Qed.

Lemma read_logins_rows_dom f fs rows logins result login :
  read_logins_rows (f :: fs) rows logins = Ok result →
  login ∈ dom logins ∨ (∃ row, row ∈ rows ∧ row_login f row = Some login) →
  login ∈ dom result.
Proof.
  revert logins. induction rows as [|row0 rows IH]; intros logins Hrun H.
  - injection Hrun as <-. destruct H as [H|(row & Hin & _)];
      [exact H | inversion Hin].
  - destruct (fields row0 !! f) as [v|] eqn:Hv;
      [|rewrite read_logins_rows_missing in Hrun by exact Hv; discriminate].
    rewrite (read_logins_rows_step f fs row0 rows logins v Hv) in Hrun.
    apply (IH _ Hrun).
    destruct H as [H|(row & Hin & Hr)].
    + left. destruct (row_login f row0); [|exact H].
      rewrite dom_insert_L. set_solver.
    + apply elem_of_cons in Hin as [->|Hin]; [|right; eauto].
      left. rewrite Hr, dom_insert_L. set_solver.
Qed.

(** The rows of the reader always have the first field. *)
Lemma fold_zip_present (kvs : list (string * string))
    (d : gmap string (option string)) k :
  is_Some (d !! k) →
  is_Some (fold_left (λ d kv, <[kv.1 := Some kv.2]> d) kvs d !! k).
Proof.
  revert d. induction kvs as [|[k' v] kvs IH]; intros d H; [exact H|].
  simpl. apply IH. destruct (decide (k' = k)) as [->|Hn].
  - rewrite lookup_insert_eq. eauto.
  - now rewrite lookup_insert_ne.
Qed.

Lemma fold_zip_other (kvs : list (string * string))
    (d : gmap string (option string)) k :
  k ∉ kvs.*1 →
  fold_left (λ d kv, <[kv.1 := Some kv.2]> d) kvs d !! k = d !! k.
Proof.
  revert d. induction kvs as [|[k' v] kvs IH]; intros d H; [reflexivity|].
  simpl in *. rewrite IH by (intros Hin; apply H; now right).
  apply lookup_insert_ne. intros ->. apply H. left.
Qed.

Lemma fold_none_present (keys : list string)
    (d : gmap string (option string)) k :
  is_Some (d !! k) →
  is_Some (fold_left (λ d key, <[key := None]> d) keys d !! k).
Proof.
  revert d. induction keys as [|k' keys IH]; intros d H; [exact H|].
  simpl. apply IH. destruct (decide (k' = k)) as [->|Hn].
  - rewrite lookup_insert_eq. eauto.
  - now rewrite lookup_insert_ne.
Qed.

Lemma fold_none_other (keys : list string)
    (d : gmap string (option string)) k :
  k ∉ keys →
  fold_left (λ d key, <[key := None]> d) keys d !! k = d !! k.
Proof.
  revert d. induction keys as [|k' keys IH]; intros d H; [reflexivity|].
  simpl. rewrite IH by (intros Hin; apply H; now right).
  apply lookup_insert_ne. intros ->. apply H. left.
Qed.

Lemma elem_of_drop_list {A} (x : A) n (l : list A) : x ∈ drop n l → x ∈ l.
Proof.
  revert n. induction l as [|y l IH]; intros [|n]; simpl; try tauto.
  intros H. right. now apply (IH n).
Qed.

Lemma dict_row_first_present f fs cell cells :
  is_Some (fields (dict_row (f :: fs) (cell :: cells)) !! f).
Proof.
  unfold dict_row.
  assert (H : is_Some (fold_left (λ d kv, <[kv.1 := Some kv.2]> d)
                         (zip (f :: fs) (cell :: cells))
                         (∅ : gmap string (option string)) !! f)).
  { simpl. apply fold_zip_present. rewrite lookup_insert_eq. eauto. }
  destruct (_ <? _)%nat; simpl fields; [exact H|].
  now apply fold_none_present.
Qed.

Lemma dict_row_first_unique f fs cell cells :
  f ∉ fs →
  fields (dict_row (f :: fs) (cell :: cells)) !! f = Some (Some cell).
Proof.
  intros Hf. unfold dict_row.
  assert (H : fold_left (λ d kv, <[kv.1 := Some kv.2]> d)
                (zip (f :: fs) (cell :: cells))
                (∅ : gmap string (option string)) !! f = Some (Some cell)).
  { simpl. rewrite fold_zip_other.
    - apply lookup_insert_eq.
    - intros Hin. apply Hf.
      apply list_elem_of_fmap in Hin as ([k v] & -> & Hin).
      simpl. now apply elem_of_zip_l in Hin. }
  destruct (_ <? _)%nat; simpl fields; [exact H|].
  rewrite fold_none_other; [exact H|].
  simpl. intros Hin. apply Hf. now apply elem_of_drop_list in Hin.
Qed.

End ReadLogins.

Section ReaderRows.

Lemma dict_reader_rows header lines row :
  row ∈ (dict_reader (header :: lines)).2
  ↔ ∃ line, line ∈ lines ∧ line ≠ [] ∧ row = dict_row header line.
Proof.
  simpl. rewrite list_elem_of_fmap. split.
  - intros (line & -> & H). apply list_elem_of_filter in H as [Hn Hin]. eauto.
  - intros (line & Hin & Hn & ->). exists line. split; [reflexivity|].
    now apply list_elem_of_filter.
Qed.

Lemma dict_reader_present f fs lines :
  Forall (λ row, is_Some (fields row !! f)) (dict_reader ((f :: fs) :: lines)).2.
Proof.
  rewrite Forall_forall. intros row H.
  apply dict_reader_rows in H as (line & _ & Hn & ->).
  destruct line as [|cell cells]; [congruence|].
  apply dict_row_first_present.
Qed.

Lemma row_login_unique f fs cell cells :
  f ∉ fs →
  row_login f (dict_row (f :: fs) (cell :: cells))
  = if truthy (strip cell) then Some (strip cell) else None.
Proof.
  intros Hf. unfold row_login. now rewrite dict_row_first_unique.
Qed.

End ReaderRows.

(** X15.  Every key of the dictionary [read_logins_from_csv] returns is
    non-empty and stripped, and its value is the row of a non-blank line
    after the header whose cell under the first field name strips to the
    key. *)
Theorem read_logins_from_csv_keys (rows : list (list string))
    (result : gmap string Row) (login : string) (row : Row) :
  read_logins_from_csv rows = Ok result →
  result !! login = Some row →
  login ≠ EmptyString ∧ strip login = login ∧
  ∃ login_id_field fieldnames lines line cell,
    rows = (login_id_field :: fieldnames) :: lines ∧
    line ∈ lines ∧ line ≠ [] ∧
    row = dict_row (login_id_field :: fieldnames) line ∧
    fields row !! login_id_field = Some (Some cell) ∧
    strip cell = login.
Proof.
  unfold read_logins_from_csv. intros Hrun Hl.
  destruct rows as [|[|f fs] lines].
  - injection Hrun as <-. now rewrite lookup_empty in Hl.
  - simpl in Hrun. destruct (_ <$> _) as [|r rs];
      [injection Hrun as <-; now rewrite lookup_empty in Hl | discriminate].
  - destruct (read_logins_rows_values f fs _ ∅ result login row Hrun Hl)
      as [H|[Hin Hr]]; [now rewrite lookup_empty in H|].
    apply dict_reader_rows in Hin as (line & Hin & Hn & ->).
    destruct (row_login_stripped _ _ _ Hr) as (Hne & Hs & cell & Hc & Hsc).
    split; [exact Hne|]. split; [exact Hs|].
    exists f, fs, lines, line, cell. auto 10.
Qed.

Lemma read_logins_from_csv_keys_witness :
  ∃ result row,
    read_logins_from_csv [["Login"; "Mail"]; [" jsmith "; "a@b"]]%string
    = Ok result ∧
    result !! "jsmith"%string = Some row ∧
    strip "jsmith" = "jsmith"%string.
Proof.
  eexists _, _. split; [reflexivity|]. split; [apply lookup_insert_eq|].
  eapply (read_logins_from_csv_keys
            [["Login"; "Mail"]; [" jsmith "; "a@b"]]%string _ "jsmith"%string _
            eq_refl).
  apply lookup_insert_eq.
Defined.

(** X16.  With a header whose first field name is not repeated: every line
    whose first cell is not blank has its stripped first cell among the keys
    of the result; a further line at the end of the file replaces the entry
    of its login (the last line of a login wins) and adds nothing when its
    first cell is blank; a further blank line changes nothing. *)
Theorem read_logins_from_csv_last_wins (login_id_field : string)
    (fieldnames : list string) (lines : list (list string))
    (cell : string) (cells : list string) :
  login_id_field ∉ fieldnames →
  (∀ result, read_logins_from_csv ((login_id_field :: fieldnames) :: lines)
             = Ok result →
     (cell :: cells) ∈ lines → strip cell ≠ EmptyString →
     strip cell ∈ dom result)
  ∧ read_logins_from_csv
      ((login_id_field :: fieldnames) :: lines ++ [cell :: cells])
    = match read_logins_from_csv ((login_id_field :: fieldnames) :: lines) with
      | Ok logins =>
          Ok (if truthy (strip cell)
              then <[strip cell :=
                       dict_row (login_id_field :: fieldnames) (cell :: cells)]>
                     logins
              else logins)
      | Raise e => Raise e
      end
  ∧ read_logins_from_csv ((login_id_field :: fieldnames) :: lines ++ [[]])
    = read_logins_from_csv ((login_id_field :: fieldnames) :: lines).
Proof.
  intros Hf. split; [|split].
  - intros result Hrun Hin Hne.
    apply (read_logins_rows_dom login_id_field fieldnames _ ∅ result _ Hrun).
    right. exists (dict_row (login_id_field :: fieldnames) (cell :: cells)).
    split.
    + apply dict_reader_rows. exists (cell :: cells). auto.
    + rewrite row_login_unique by exact Hf.
      destruct (truthy (strip cell)) eqn:Ht; [reflexivity|].
      now apply truthy_false in Ht.
  - unfold read_logins_from_csv. simpl.
    rewrite filter_app, fmap_app, read_logins_rows_app.
    destruct (read_logins_rows _ _ ∅) as [logins|e]; [|reflexivity].
    rewrite filter_cons, decide_True by discriminate. rewrite filter_nil.
    change (dict_row (login_id_field :: fieldnames) <$> [cell :: cells])
      with [dict_row (login_id_field :: fieldnames) (cell :: cells)].
    destruct (dict_row_first_present login_id_field fieldnames cell cells)
      as [v Hv].
    rewrite (read_logins_rows_step _ _ _ _ _ v Hv).
    rewrite row_login_unique by exact Hf.
    now destruct (truthy (strip cell)).
  - unfold read_logins_from_csv. simpl.
    rewrite filter_app, fmap_app, read_logins_rows_app.
    destruct (read_logins_rows _ _ ∅) as [logins|e]; [|reflexivity].
    rewrite filter_cons, decide_False by (intros H; now apply H).
    reflexivity.
Qed.

Lemma read_logins_from_csv_last_wins_witness :
  read_logins_from_csv
    (app [["Login"; "Mail"]; ["jsmith"; "old"]] [["jsmith"; "new"]])%string
  = match read_logins_from_csv [["Login"; "Mail"]; ["jsmith"; "old"]]%string with
    | Ok logins =>
        Ok (<["jsmith"%string := dict_row ["Login"; "Mail"] ["jsmith"; "new"]]>
              logins)
    | Raise e => Raise e
    end.
Proof.
  apply (read_logins_from_csv_last_wins "Login" ["Mail"]
           [["jsmith"; "old"]] "jsmith" ["new"])%string.
  intros H. apply list_elem_of_singleton in H. discriminate.
Defined.

(** X17.  [read_logins_from_csv] never raises [KeyError]; it raises
    [IndexError] exactly when the first line of the file is blank and some
    later line is not; in every other case it returns a dictionary. *)
Theorem read_logins_from_csv_raises (rows : list (list string)) :
  read_logins_from_csv rows ≠ Raise KeyError
  ∧ (read_logins_from_csv rows = Raise IndexError
     ↔ ∃ lines line, rows = [] :: lines ∧ line ∈ lines ∧ line ≠ [])
  ∧ ((∀ lines line, rows = [] :: lines → line ∈ lines → line = []) →
     ∃ result, read_logins_from_csv rows = Ok result).
Proof.
  unfold read_logins_from_csv.
  destruct rows as [|[|f fs] lines].
  - split; [discriminate|]. split; [|intros _; now exists ∅].
    split; [discriminate|]. intros (lines & line & H & _). discriminate.
  - simpl. destruct (filter (λ row, row ≠ []) lines) as [|line0 ls] eqn:Ef.
    + split; [discriminate|]. split; [|intros _; now exists ∅].
      split; [discriminate|].
      intros (lines' & line & [= <-] & Hin & Hn). exfalso.
      assert (H : line ∈ filter (λ row, row ≠ []) lines)
        by now apply list_elem_of_filter.
      rewrite Ef in H. inversion H.
    + assert (H0 : line0 ∈ filter (λ row, row ≠ []) lines)
        by (rewrite Ef; left).
      apply list_elem_of_filter in H0 as [Hn Hin].
      split; [discriminate|]. split.
      * split; [|reflexivity]. intros _. exists lines, line0. auto.
      * intros H. exfalso. apply Hn. now apply (H lines line0).
  - destruct (read_logins_rows_Ok f fs _ ∅ (dict_reader_present f fs lines))
      as [result Hr].
    simpl in Hr |- *. rewrite Hr.
    split; [discriminate|]. split; [|intros _; now exists result].
    split; [discriminate|]. intros (lines' & line & H & _). discriminate.
Qed.

Lemma read_logins_from_csv_raises_witness :
  read_logins_from_csv [[]; ["jsmith"]]%string = Raise IndexError
  ∧ ∃ result, read_logins_from_csv [["Login"]; ["jsmith"]; []]%string = Ok result.
Proof.
  split.
  - apply (read_logins_from_csv_raises [[]; ["jsmith"]]%string).
    exists [["jsmith"]]%string, ["jsmith"]%string.
    split; [reflexivity|]. split; [left | discriminate].
  - apply (read_logins_from_csv_raises [["Login"]; ["jsmith"]; []]%string).
    intros lines line H. discriminate.
Defined.

(** X18.  [main], once the logins file has been read: if some row of the
    names file after the header has at least two cells and a blank first or
    second cell, matching raises [IndexError]; if no row has, the matching
    returns the result of [find_matching_logins] on the names and logins
    read. *)
Theorem main_results_spec (names_rows logins_rows : list (list string))
    (logins : gmap string Row) :
  read_logins_from_csv logins_rows = Ok logins →
  ((∃ c0 c1 cells, (c0 :: c1 :: cells) ∈ tail names_rows ∧
      (strip c0 = EmptyString ∨ strip c1 = EmptyString)) →
   main_results names_rows logins_rows = Raise IndexError)
  ∧ ((∀ c0 c1 cells, (c0 :: c1 :: cells) ∈ tail names_rows →
        strip c0 ≠ EmptyString ∧ strip c1 ≠ EmptyString) →
     ∃ result,
       main_results names_rows logins_rows = Ok result ∧
       find_matching_logins (read_names_from_csv names_rows) logins
       = (Ok result, logins)).
Proof.
  intros Hlogins. unfold main_results. rewrite Hlogins. simpl. split.
  - intros (c0 & c1 & cs & Hin & He).
    unfold find_matching_logins, M_bind, logins_keys.
    rewrite match_names_raise; [reflexivity|].
    exists (strip c0), (strip c1). split.
    + apply read_names_mem. eauto 6.
    + now rewrite !strip_idem.
  - intros Hne.
    destruct (find_matching_logins_run logins (read_names_from_csv names_rows))
      as (m' & ml' & Hfind & _).
    + intros f l Hin. apply read_names_mem in Hin as (c0 & c1 & cs & Hin & -> & ->).
      rewrite !strip_idem. eauto.
    + rewrite Hfind. eauto.
Qed.

Lemma main_results_spec_witness :
  main_results [["First"; "Last"]; ["John"; "Smith"]; [" "; "Doe"]]%string
               [["Login"]; ["jsmith"]]%string
  = Raise IndexError.
Proof.
  destruct (read_logins_from_csv_raises [["Login"]; ["jsmith"]]%string)
    as (_ & _ & Hok).
  destruct Hok as [logins Hlogins]; [intros lines line H; discriminate|].
  apply (main_results_spec _ _ logins Hlogins).
  exists " "%string, "Doe"%string, []. split; [right; left | left; reflexivity].
Defined.
